(** * AI Pathfinder: the stepwise search engine of [pathfinder/algorithms.py]

    A shallow embedding of the six step functions, of path reconstruction and
    of the run initialisation of [pathfinder/app.py], followed by the
    properties of the engine that the specification states.

    Conventions of the embedding.
    - Python integers are [Z]; a node is a pair of integers.
    - Python floats are the kernel's binary64 floats ([PrimFloat.float]); the
      literals [1.0] and [1.414] are the doubles Python reads.
    - A [set] of nodes is a [gset node], a [dict] keyed by nodes a [gmap];
      a value [None] stored in a dict is [Some None] at lookup, a missing key
      is [None].
    - A Python exception (IndexError, KeyError) and a loop that never ends are
      both the result [None] of the option monad; [Some app'] is a normal
      return with the mutated application state.
    - [app.frontier] holds a deque or list of nodes (BFS, DFS), a heap of
      (cost, node) pairs (UCS) or a list of (node, depth) pairs (DLS, IDDFS);
      each shape has a field of its own ([frontier], [frontier_pq],
      [frontier_dl]); the value [None] before a run is the empty container,
      which the code only ever tests with [not app.frontier].
    - [reversed(l)] and [l.reverse()] are [reverse l].
    - A list used as a stack ([append] / [pop()]) is kept top first; a deque
      ([append] / [popleft()]) is kept in queue order. *)

From Stdlib Require Import ZArith List Bool Lia.
From Stdlib Require Import Floats.PrimFloat.
From stdpp Require Import gmap list.

Local Open Scope Z_scope.

(* [1.414] is read as the nearest double, as Python reads it. *)
#[local] Set Warnings "-inexact-float".

(** ** constants.py *)

Inductive CellType : Type := EMPTY | WALL | START | TARGET.

Inductive CellState : Type :=
  NONE | FRONTIER | EXPLORED | PATH | FRONTIER2 | EXPLORED2.

Module Colors.
Inductive t : Type :=
  EMPTY | WALL | START | TARGET | FRONTIER | EXPLORED | PATH
| FRONTIER2 | EXPLORED2.
End Colors.

#[global] Instance CellType_eq_dec : EqDecision CellType.
Proof. solve_decision. Defined.

#[global] Instance CellState_eq_dec : EqDecision CellState.
Proof. solve_decision. Defined.

Inductive Algorithm : Type := BFS | DFS | UCS | DLS | IDDFS | Bidirectional.

#[global] Instance Algorithm_eq_dec : EqDecision Algorithm.
Proof. solve_decision. Defined.

Definition node : Type := Z * Z.

(** ** Python sequences indexed by an integer *)

(** [l[i]] for a list of length [len]: a negative index counts from the end,
    anything else out of range raises IndexError. *)
Definition py_index (len i : Z) : option nat :=
  if bool_decide (0 <= i < len) then Some (Z.to_nat i)
  else if bool_decide (- len <= i < 0) then Some (Z.to_nat (len + i))
  else None.

Definition py_get {A : Type} (l : list A) (i : Z) : option A :=
  k ← py_index (Z.of_nat (length l)) i; l !! k.

Definition py_set {A : Type} (l : list A) (i : Z) (v : A) : option (list A) :=
  k ← py_index (Z.of_nat (length l)) i; Some (<[k := v]> l).

(** [m[r][c]] and [m[r][c] = v] on a list of rows. *)
Definition get2 {A : Type} (m : list (list A)) (r c : Z) : option A :=
  row ← py_get m r; py_get row c.

Definition set2 {A : Type} (m : list (list A)) (r c : Z) (v : A)
  : option (list (list A)) :=
  row ← py_get m r; row' ← py_set row c v; py_set m r row'.

(** A [for] loop whose body may raise. *)
Fixpoint for_each {A S : Type} (body : S -> A -> option S) (s : S) (l : list A)
  : option S :=
  match l with
  | [] => Some s
  | x :: l' => s' ← body s x; for_each body s' l'
  end.

(** ** grid.py *)

Definition create_grid (rows cols : Z) : list (list CellType) :=
  replicate (Z.to_nat rows) (replicate (Z.to_nat cols) EMPTY).

Definition create_cell_states (rows cols : Z) : list (list CellState) :=
  replicate (Z.to_nat rows) (replicate (Z.to_nat cols) NONE).

(** ** ui.py: the colour a cell is drawn in *)

Definition get_cell_color (grid : list (list CellType))
    (cell_states : list (list CellState)) (row col : Z) : option Colors.t :=
  cell_type ← get2 grid row col;
  cell_state ← get2 cell_states row col;
  Some (if decide (cell_type = START) then Colors.START
        else if decide (cell_type = TARGET) then Colors.TARGET
        else if decide (cell_state = PATH) then Colors.PATH
        else if decide (cell_state = FRONTIER) then Colors.FRONTIER
        else if decide (cell_state = FRONTIER2) then Colors.FRONTIER2
        else if decide (cell_state = EXPLORED) then Colors.EXPLORED
        else if decide (cell_state = EXPLORED2) then Colors.EXPLORED2
        else if decide (cell_type = WALL) then Colors.WALL
        else Colors.EMPTY).

(** ** algorithms.py: the neighbour model *)

Definition movements : list (Z * Z) :=
  [(-1, 0); (0, 1); (1, 0); (1, 1); (0, -1); (-1, -1)].

Definition get_neighbors (grid : list (list CellType)) (nd : node)
    (rows cols : Z) : option (list node) :=
  let '(row, col) := nd in
  for_each (fun neighbors '(dr, dc) =>
      let new_row := row + dr in
      let new_col := col + dc in
      if bool_decide (0 <= new_row < rows ∧ 0 <= new_col < cols) then
        cell ← get2 grid new_row new_col;
        if decide (cell ≠ WALL) then Some (neighbors ++ [(new_row, new_col)])
        else Some neighbors
      else Some neighbors)
    [] movements.

Definition get_move_cost (from_node to_node : node) : float :=
  let '(r1, c1) := from_node in
  let '(r2, c2) := to_node in
  if bool_decide (Z.abs (r1 - r2) + Z.abs (c1 - c2) = 2) then 1.414%float
  else 1.0%float.

(** ** app.py: the application state the step functions share *)

(** The text [finish_search] and [start_search] hand to [update_status],
    by the values formatted into it. *)
Inductive Status : Type :=
| MsgIdle
| MsgSearching (algo : Algorithm)
| MsgPathFound (algo : Algorithm) (steps : Z) (explored_count : nat)
    (path_len : nat) (depth : option Z)
| MsgNoPath (algo : Algorithm) (steps : Z) (limit : option Z).

#[projections(primitive)]
Record App : Type := mkApp {
  rows : Z;
  cols : Z;
  grid : list (list CellType);
  cell_states : list (list CellState);
  start : node;
  target : node;
  selected_algorithm : Algorithm;
  frontier : list node;
  frontier_pq : list (float * node);
  frontier_dl : list (node * Z);
  explored : gset node;
  came_from : gmap node (option node);
  final_path : list node;
  search_complete : bool;
  searching : bool;
  step_count : Z;
  depth_limit : Z;
  current_depth_limit : Z;
  cost_so_far : gmap node float;
  frontier_forward : list node;
  frontier_backward : list node;
  explored_forward : gset node;
  explored_backward : gset node;
  came_from_forward : gmap node (option node);
  came_from_backward : gmap node (option node);
  meeting_point : option node;
  status_message : Status
}.

Definition set_cell_states (v : list (list CellState)) (app : App) : App :=
  mkApp (app.(rows)) (app.(cols)) (app.(grid)) v (app.(start)) (app.(target))
    (app.(selected_algorithm)) (app.(frontier)) (app.(frontier_pq))
    (app.(frontier_dl)) (app.(explored)) (app.(came_from)) (app.(final_path))
    (app.(search_complete)) (app.(searching)) (app.(step_count))
    (app.(depth_limit)) (app.(current_depth_limit)) (app.(cost_so_far))
    (app.(frontier_forward)) (app.(frontier_backward))
    (app.(explored_forward)) (app.(explored_backward))
    (app.(came_from_forward)) (app.(came_from_backward)) (app.(meeting_point))
    (app.(status_message)).

Definition set_frontier (v : list node) (app : App) : App :=
  mkApp (app.(rows)) (app.(cols)) (app.(grid)) (app.(cell_states))
    (app.(start)) (app.(target)) (app.(selected_algorithm)) v
    (app.(frontier_pq)) (app.(frontier_dl)) (app.(explored)) (app.(came_from))
    (app.(final_path)) (app.(search_complete)) (app.(searching))
    (app.(step_count)) (app.(depth_limit)) (app.(current_depth_limit))
    (app.(cost_so_far)) (app.(frontier_forward)) (app.(frontier_backward))
    (app.(explored_forward)) (app.(explored_backward))
    (app.(came_from_forward)) (app.(came_from_backward)) (app.(meeting_point))
    (app.(status_message)).

Definition set_frontier_pq (v : list (float * node)) (app : App) : App :=
  mkApp (app.(rows)) (app.(cols)) (app.(grid)) (app.(cell_states))
    (app.(start)) (app.(target)) (app.(selected_algorithm)) (app.(frontier)) v
    (app.(frontier_dl)) (app.(explored)) (app.(came_from)) (app.(final_path))
    (app.(search_complete)) (app.(searching)) (app.(step_count))
    (app.(depth_limit)) (app.(current_depth_limit)) (app.(cost_so_far))
    (app.(frontier_forward)) (app.(frontier_backward))
    (app.(explored_forward)) (app.(explored_backward))
    (app.(came_from_forward)) (app.(came_from_backward)) (app.(meeting_point))
    (app.(status_message)).

Definition set_frontier_dl (v : list (node * Z)) (app : App) : App :=
  mkApp (app.(rows)) (app.(cols)) (app.(grid)) (app.(cell_states))
    (app.(start)) (app.(target)) (app.(selected_algorithm)) (app.(frontier))
    (app.(frontier_pq)) v (app.(explored)) (app.(came_from))
    (app.(final_path)) (app.(search_complete)) (app.(searching))
    (app.(step_count)) (app.(depth_limit)) (app.(current_depth_limit))
    (app.(cost_so_far)) (app.(frontier_forward)) (app.(frontier_backward))
    (app.(explored_forward)) (app.(explored_backward))
    (app.(came_from_forward)) (app.(came_from_backward)) (app.(meeting_point))
    (app.(status_message)).

Definition set_explored (v : gset node) (app : App) : App :=
  mkApp (app.(rows)) (app.(cols)) (app.(grid)) (app.(cell_states))
    (app.(start)) (app.(target)) (app.(selected_algorithm)) (app.(frontier))
    (app.(frontier_pq)) (app.(frontier_dl)) v (app.(came_from))
    (app.(final_path)) (app.(search_complete)) (app.(searching))
    (app.(step_count)) (app.(depth_limit)) (app.(current_depth_limit))
    (app.(cost_so_far)) (app.(frontier_forward)) (app.(frontier_backward))
    (app.(explored_forward)) (app.(explored_backward))
    (app.(came_from_forward)) (app.(came_from_backward)) (app.(meeting_point))
    (app.(status_message)).

Definition set_came_from (v : gmap node (option node)) (app : App) : App :=
  mkApp (app.(rows)) (app.(cols)) (app.(grid)) (app.(cell_states))
    (app.(start)) (app.(target)) (app.(selected_algorithm)) (app.(frontier))
    (app.(frontier_pq)) (app.(frontier_dl)) (app.(explored)) v
    (app.(final_path)) (app.(search_complete)) (app.(searching))
    (app.(step_count)) (app.(depth_limit)) (app.(current_depth_limit))
    (app.(cost_so_far)) (app.(frontier_forward)) (app.(frontier_backward))
    (app.(explored_forward)) (app.(explored_backward))
    (app.(came_from_forward)) (app.(came_from_backward)) (app.(meeting_point))
    (app.(status_message)).

Definition set_final_path (v : list node) (app : App) : App :=
  mkApp (app.(rows)) (app.(cols)) (app.(grid)) (app.(cell_states))
    (app.(start)) (app.(target)) (app.(selected_algorithm)) (app.(frontier))
    (app.(frontier_pq)) (app.(frontier_dl)) (app.(explored)) (app.(came_from))
    v (app.(search_complete)) (app.(searching)) (app.(step_count))
    (app.(depth_limit)) (app.(current_depth_limit)) (app.(cost_so_far))
    (app.(frontier_forward)) (app.(frontier_backward))
    (app.(explored_forward)) (app.(explored_backward))
    (app.(came_from_forward)) (app.(came_from_backward)) (app.(meeting_point))
    (app.(status_message)).

Definition set_search_complete (v : bool) (app : App) : App :=
  mkApp (app.(rows)) (app.(cols)) (app.(grid)) (app.(cell_states))
    (app.(start)) (app.(target)) (app.(selected_algorithm)) (app.(frontier))
    (app.(frontier_pq)) (app.(frontier_dl)) (app.(explored)) (app.(came_from))
    (app.(final_path)) v (app.(searching)) (app.(step_count))
    (app.(depth_limit)) (app.(current_depth_limit)) (app.(cost_so_far))
    (app.(frontier_forward)) (app.(frontier_backward))
    (app.(explored_forward)) (app.(explored_backward))
    (app.(came_from_forward)) (app.(came_from_backward)) (app.(meeting_point))
    (app.(status_message)).

Definition set_searching (v : bool) (app : App) : App :=
  mkApp (app.(rows)) (app.(cols)) (app.(grid)) (app.(cell_states))
    (app.(start)) (app.(target)) (app.(selected_algorithm)) (app.(frontier))
    (app.(frontier_pq)) (app.(frontier_dl)) (app.(explored)) (app.(came_from))
    (app.(final_path)) (app.(search_complete)) v (app.(step_count))
    (app.(depth_limit)) (app.(current_depth_limit)) (app.(cost_so_far))
    (app.(frontier_forward)) (app.(frontier_backward))
    (app.(explored_forward)) (app.(explored_backward))
    (app.(came_from_forward)) (app.(came_from_backward)) (app.(meeting_point))
    (app.(status_message)).

Definition set_step_count (v : Z) (app : App) : App :=
  mkApp (app.(rows)) (app.(cols)) (app.(grid)) (app.(cell_states))
    (app.(start)) (app.(target)) (app.(selected_algorithm)) (app.(frontier))
    (app.(frontier_pq)) (app.(frontier_dl)) (app.(explored)) (app.(came_from))
    (app.(final_path)) (app.(search_complete)) (app.(searching)) v
    (app.(depth_limit)) (app.(current_depth_limit)) (app.(cost_so_far))
    (app.(frontier_forward)) (app.(frontier_backward))
    (app.(explored_forward)) (app.(explored_backward))
    (app.(came_from_forward)) (app.(came_from_backward)) (app.(meeting_point))
    (app.(status_message)).

Definition set_current_depth_limit (v : Z) (app : App) : App :=
  mkApp (app.(rows)) (app.(cols)) (app.(grid)) (app.(cell_states))
    (app.(start)) (app.(target)) (app.(selected_algorithm)) (app.(frontier))
    (app.(frontier_pq)) (app.(frontier_dl)) (app.(explored)) (app.(came_from))
    (app.(final_path)) (app.(search_complete)) (app.(searching))
    (app.(step_count)) (app.(depth_limit)) v (app.(cost_so_far))
    (app.(frontier_forward)) (app.(frontier_backward))
    (app.(explored_forward)) (app.(explored_backward))
    (app.(came_from_forward)) (app.(came_from_backward)) (app.(meeting_point))
    (app.(status_message)).

Definition set_cost_so_far (v : gmap node float) (app : App) : App :=
  mkApp (app.(rows)) (app.(cols)) (app.(grid)) (app.(cell_states))
    (app.(start)) (app.(target)) (app.(selected_algorithm)) (app.(frontier))
    (app.(frontier_pq)) (app.(frontier_dl)) (app.(explored)) (app.(came_from))
    (app.(final_path)) (app.(search_complete)) (app.(searching))
    (app.(step_count)) (app.(depth_limit)) (app.(current_depth_limit)) v
    (app.(frontier_forward)) (app.(frontier_backward))
    (app.(explored_forward)) (app.(explored_backward))
    (app.(came_from_forward)) (app.(came_from_backward)) (app.(meeting_point))
    (app.(status_message)).

Definition set_frontier_forward (v : list node) (app : App) : App :=
  mkApp (app.(rows)) (app.(cols)) (app.(grid)) (app.(cell_states))
    (app.(start)) (app.(target)) (app.(selected_algorithm)) (app.(frontier))
    (app.(frontier_pq)) (app.(frontier_dl)) (app.(explored)) (app.(came_from))
    (app.(final_path)) (app.(search_complete)) (app.(searching))
    (app.(step_count)) (app.(depth_limit)) (app.(current_depth_limit))
    (app.(cost_so_far)) v (app.(frontier_backward)) (app.(explored_forward))
    (app.(explored_backward)) (app.(came_from_forward))
    (app.(came_from_backward)) (app.(meeting_point)) (app.(status_message)).

Definition set_frontier_backward (v : list node) (app : App) : App :=
  mkApp (app.(rows)) (app.(cols)) (app.(grid)) (app.(cell_states))
    (app.(start)) (app.(target)) (app.(selected_algorithm)) (app.(frontier))
    (app.(frontier_pq)) (app.(frontier_dl)) (app.(explored)) (app.(came_from))
    (app.(final_path)) (app.(search_complete)) (app.(searching))
    (app.(step_count)) (app.(depth_limit)) (app.(current_depth_limit))
    (app.(cost_so_far)) (app.(frontier_forward)) v (app.(explored_forward))
    (app.(explored_backward)) (app.(came_from_forward))
    (app.(came_from_backward)) (app.(meeting_point)) (app.(status_message)).

Definition set_explored_forward (v : gset node) (app : App) : App :=
  mkApp (app.(rows)) (app.(cols)) (app.(grid)) (app.(cell_states))
    (app.(start)) (app.(target)) (app.(selected_algorithm)) (app.(frontier))
    (app.(frontier_pq)) (app.(frontier_dl)) (app.(explored)) (app.(came_from))
    (app.(final_path)) (app.(search_complete)) (app.(searching))
    (app.(step_count)) (app.(depth_limit)) (app.(current_depth_limit))
    (app.(cost_so_far)) (app.(frontier_forward)) (app.(frontier_backward)) v
    (app.(explored_backward)) (app.(came_from_forward))
    (app.(came_from_backward)) (app.(meeting_point)) (app.(status_message)).

Definition set_explored_backward (v : gset node) (app : App) : App :=
  mkApp (app.(rows)) (app.(cols)) (app.(grid)) (app.(cell_states))
    (app.(start)) (app.(target)) (app.(selected_algorithm)) (app.(frontier))
    (app.(frontier_pq)) (app.(frontier_dl)) (app.(explored)) (app.(came_from))
    (app.(final_path)) (app.(search_complete)) (app.(searching))
    (app.(step_count)) (app.(depth_limit)) (app.(current_depth_limit))
    (app.(cost_so_far)) (app.(frontier_forward)) (app.(frontier_backward))
    (app.(explored_forward)) v (app.(came_from_forward))
    (app.(came_from_backward)) (app.(meeting_point)) (app.(status_message)).

Definition set_came_from_forward (v : gmap node (option node)) (app : App) : App :=
  mkApp (app.(rows)) (app.(cols)) (app.(grid)) (app.(cell_states))
    (app.(start)) (app.(target)) (app.(selected_algorithm)) (app.(frontier))
    (app.(frontier_pq)) (app.(frontier_dl)) (app.(explored)) (app.(came_from))
    (app.(final_path)) (app.(search_complete)) (app.(searching))
    (app.(step_count)) (app.(depth_limit)) (app.(current_depth_limit))
    (app.(cost_so_far)) (app.(frontier_forward)) (app.(frontier_backward))
    (app.(explored_forward)) (app.(explored_backward)) v
    (app.(came_from_backward)) (app.(meeting_point)) (app.(status_message)).

Definition set_came_from_backward (v : gmap node (option node)) (app : App) : App :=
  mkApp (app.(rows)) (app.(cols)) (app.(grid)) (app.(cell_states))
    (app.(start)) (app.(target)) (app.(selected_algorithm)) (app.(frontier))
    (app.(frontier_pq)) (app.(frontier_dl)) (app.(explored)) (app.(came_from))
    (app.(final_path)) (app.(search_complete)) (app.(searching))
    (app.(step_count)) (app.(depth_limit)) (app.(current_depth_limit))
    (app.(cost_so_far)) (app.(frontier_forward)) (app.(frontier_backward))
    (app.(explored_forward)) (app.(explored_backward))
    (app.(came_from_forward)) v (app.(meeting_point)) (app.(status_message)).

Definition set_meeting_point (v : option node) (app : App) : App :=
  mkApp (app.(rows)) (app.(cols)) (app.(grid)) (app.(cell_states))
    (app.(start)) (app.(target)) (app.(selected_algorithm)) (app.(frontier))
    (app.(frontier_pq)) (app.(frontier_dl)) (app.(explored)) (app.(came_from))
    (app.(final_path)) (app.(search_complete)) (app.(searching))
    (app.(step_count)) (app.(depth_limit)) (app.(current_depth_limit))
    (app.(cost_so_far)) (app.(frontier_forward)) (app.(frontier_backward))
    (app.(explored_forward)) (app.(explored_backward))
    (app.(came_from_forward)) (app.(came_from_backward)) v
    (app.(status_message)).

Definition set_status_message (v : Status) (app : App) : App :=
  mkApp (app.(rows)) (app.(cols)) (app.(grid)) (app.(cell_states))
    (app.(start)) (app.(target)) (app.(selected_algorithm)) (app.(frontier))
    (app.(frontier_pq)) (app.(frontier_dl)) (app.(explored)) (app.(came_from))
    (app.(final_path)) (app.(search_complete)) (app.(searching))
    (app.(step_count)) (app.(depth_limit)) (app.(current_depth_limit))
    (app.(cost_so_far)) (app.(frontier_forward)) (app.(frontier_backward))
    (app.(explored_forward)) (app.(explored_backward))
    (app.(came_from_forward)) (app.(came_from_backward)) (app.(meeting_point))
    v.

(** [app.cell_states[node[0]][node[1]] = state] *)
Definition paint (nd : node) (state : CellState) (app : App) : option App :=
  cs ← set2 (app.(cell_states)) nd.1 nd.2 state;
  Some (set_cell_states cs app).

Definition finish_search (found : bool) (app : App) : App :=
  let app := set_search_complete true app in
  let app := set_searching false app in
  let algo := app.(selected_algorithm) in
  if found then
    let explored_count :=
      if decide (algo = Bidirectional)
      then (size (app.(explored_forward)) + size (app.(explored_backward)))%nat
      else size (app.(explored)) in
    set_status_message
      (MsgPathFound algo (app.(step_count)) explored_count
         (length (app.(final_path)))
         (if decide (algo = IDDFS) then Some (app.(current_depth_limit))
          else None))
      app
  else
    set_status_message
      (MsgNoPath algo (app.(step_count))
         (if decide (algo = DLS) then Some (app.(depth_limit))
          else if decide (algo = IDDFS) then Some (app.(current_depth_limit))
          else None))
      app.

Arguments finish_search : simpl never.

(** ** algorithms.py: path reconstruction *)

Definition mark_path (app : App) : option App :=
  for_each (fun app nd =>
      if bool_decide (nd ≠ app.(start) ∧ nd ≠ app.(target))
      then paint nd PATH app else Some app)
    app (app.(final_path)).

(** The loop
    [while current in came_from: path.append(current); current = came_from[current]],
    returning the nodes appended, in the order they are appended.  [current]
    is a node or the [None] a predecessor map stores for its root.  The walk
    reads one key per turn; once it has read more keys than the map holds it
    is on a cycle and the loop never ends, which is the result [None]. *)
Fixpoint walk_back (cf : gmap node (option node)) (fuel : nat)
    (current : option node) : option (list node) :=
  match current with
  | None => Some []
  | Some c =>
      match cf !! c with
      | None => Some []
      | Some next =>
          match fuel with
          | O => None
          | S fuel' => rest ← walk_back cf fuel' next; Some (c :: rest)
          end
      end
  end.

Definition walk (cf : gmap node (option node)) (current : option node)
  : option (list node) :=
  walk_back cf (S (size cf)) current.

Definition reconstruct_path (app : App) : option App :=
  visited ← walk (app.(came_from)) (Some (app.(target)));
  let final := visited ++ [app.(start)] in
  mark_path (set_final_path (reverse final) app).

Definition reconstruct_bidirectional_path (app : App) : option App :=
  fwd ← walk (app.(came_from_forward)) (app.(meeting_point));
  let forward_path := reverse (fwd ++ [app.(start)]) in
  backward_path ←
    match app.(meeting_point) with
    | None => Some []
    | Some current =>
        match app.(came_from_backward) !! current with
        | Some (Some next) =>
            bwd ← walk (app.(came_from_backward)) (Some next);
            Some (bwd ++ [app.(target)])
        | _ => Some []
        end
    end;
  mark_path (set_final_path (forward_path ++ backward_path) app).

(** ** algorithms.py: the step functions *)

(** The body of the loop over the neighbours in [bfs_step]. *)
Definition bfs_visit (current : node) (app : App) (neighbor : node)
  : option App :=
  if bool_decide ((neighbor ∉ app.(explored)) ∧ (neighbor ∉ app.(frontier)))
  then
    let app := set_frontier (app.(frontier) ++ [neighbor]) app in
    let app :=
      set_came_from (<[neighbor := Some current]> (app.(came_from))) app in
    if bool_decide (neighbor ≠ app.(target))
    then paint neighbor FRONTIER app else Some app
  else Some app.

Definition bfs_step (app : App) : option App :=
  match app.(frontier) with
  | [] => Some (finish_search false app)
  | current :: rest =>
      let app := set_frontier rest app in
      let app := set_explored ({[current]} ∪ app.(explored)) app in
      app ← (if bool_decide (current ≠ app.(start) ∧ current ≠ app.(target))
             then paint current EXPLORED app else Some app);
      if bool_decide (current = app.(target)) then
        app ← reconstruct_path app;
        Some (finish_search true app)
      else
        neighbors ← get_neighbors (app.(grid)) current (app.(rows)) (app.(cols));
        app ← for_each (bfs_visit current) app neighbors;
        Some (set_step_count (app.(step_count) + 1) app)
  end.

(** The body of the loop over the reversed neighbours in [dfs_step]; the
    test [neighbor not in [n for n in app.frontier]] reads the stack as it is
    at that turn of the loop. *)
Definition dfs_visit (current : node) (app : App) (neighbor : node)
  : option App :=
  if bool_decide (neighbor ∉ app.(explored)) then
    if bool_decide (neighbor ∉ app.(frontier)) then
      let app := set_frontier (neighbor :: app.(frontier)) app in
      let app :=
        if bool_decide (neighbor ∉ dom (app.(came_from)))
        then set_came_from (<[neighbor := Some current]> (app.(came_from))) app
        else app in
      if bool_decide (neighbor ≠ app.(target))
      then paint neighbor FRONTIER app else Some app
    else Some app
  else Some app.

Definition dfs_step (app : App) : option App :=
  match app.(frontier) with
  | [] => Some (finish_search false app)
  | current :: rest =>
      let app := set_frontier rest app in
      if bool_decide (current ∈ app.(explored)) then Some app
      else
        let app := set_explored ({[current]} ∪ app.(explored)) app in
        app ← (if bool_decide (current ≠ app.(start) ∧ current ≠ app.(target))
               then paint current EXPLORED app else Some app);
        if bool_decide (current = app.(target)) then
          app ← reconstruct_path app;
          Some (finish_search true app)
        else
          neighbors ←
            get_neighbors (app.(grid)) current (app.(rows)) (app.(cols));
          app ← for_each (dfs_visit current) app (reverse neighbors);
          Some (set_step_count (app.(step_count) + 1) app)
  end.

(** Python's [<] on the pairs a heap holds: the first components that are not
    [==] decide, the nodes break a tie of costs. *)
Definition node_ltb (a b : node) : bool :=
  if bool_decide (a.1 = b.1) then bool_decide (a.2 < b.2)
  else bool_decide (a.1 < b.1).

Definition entry_ltb (x y : float * node) : bool :=
  if PrimFloat.eqb x.1 y.1 then node_ltb x.2 y.2 else PrimFloat.ltb x.1 y.1.

(** [heapq]: the array is a binary heap whose layout the code never observes
    (it pushes, pops and tests emptiness), so the heap is kept as the bag of
    its entries; [heappop] takes out a least entry. *)
Fixpoint pop_min (x : float * node) (l : list (float * node))
  : (float * node) * list (float * node) :=
  match l with
  | [] => (x, [])
  | y :: l' =>
      let '(m, rest) := pop_min y l' in
      if entry_ltb m x then (m, x :: rest) else (x, y :: l')
  end.

Definition heappush (h : list (float * node)) (x : float * node)
  : list (float * node) := x :: h.

(** The body of the loop over the neighbours in [ucs_step]. *)
Definition ucs_relax (current : node) (app : App) (neighbor : node)
  : option App :=
  if bool_decide (neighbor ∉ app.(explored)) then
    base ← app.(cost_so_far) !! current;
    let new_cost := (base + get_move_cost current neighbor)%float in
    let improves :=
      match app.(cost_so_far) !! neighbor with
      | None => true
      | Some old => PrimFloat.ltb new_cost old
      end in
    if improves then
      let app :=
        set_cost_so_far (<[neighbor := new_cost]> (app.(cost_so_far))) app in
      let app :=
        set_frontier_pq (heappush (app.(frontier_pq)) (new_cost, neighbor)) app in
      let app :=
        set_came_from (<[neighbor := Some current]> (app.(came_from))) app in
      if bool_decide (neighbor ≠ app.(target))
      then paint neighbor FRONTIER app else Some app
    else Some app
  else Some app.

Definition ucs_step (app : App) : option App :=
  match app.(frontier_pq) with
  | [] => Some (finish_search false app)
  | x :: l =>
      let '((cost, current), rest) := pop_min x l in
      let app := set_frontier_pq rest app in
      if bool_decide (current ∈ app.(explored)) then Some app
      else
        let app := set_explored ({[current]} ∪ app.(explored)) app in
        app ← (if bool_decide (current ≠ app.(start) ∧ current ≠ app.(target))
               then paint current EXPLORED app else Some app);
        if bool_decide (current = app.(target)) then
          app ← reconstruct_path app;
          Some (finish_search true app)
        else
          neighbors ←
            get_neighbors (app.(grid)) current (app.(rows)) (app.(cols));
          app ← for_each (ucs_relax current) app neighbors;
          Some (set_step_count (app.(step_count) + 1) app)
  end.

(** The loop body DLS and IDDFS share: push every neighbour that is not yet
    explored, with no look at the frontier. *)
Definition push_unexplored (current : node) (depth : Z) (app : App)
    (neighbor : node) : option App :=
  if bool_decide (neighbor ∉ app.(explored)) then
    let app := set_frontier_dl ((neighbor, depth + 1) :: app.(frontier_dl)) app in
    let app :=
      if bool_decide (neighbor ∉ dom (app.(came_from)))
      then set_came_from (<[neighbor := Some current]> (app.(came_from))) app
      else app in
    if bool_decide (neighbor ≠ app.(target))
    then paint neighbor FRONTIER app else Some app
  else Some app.

(** What DLS and IDDFS do with a popped pair, given the bound in force. *)
Definition expand_limited (limit : Z) (current : node) (depth : Z) (app : App)
  : option App :=
  if bool_decide (current ∈ app.(explored)) then Some app
  else
    let app := set_explored ({[current]} ∪ app.(explored)) app in
    app ← (if bool_decide (current ≠ app.(start) ∧ current ≠ app.(target))
           then paint current EXPLORED app else Some app);
    if bool_decide (current = app.(target)) then
      app ← reconstruct_path app;
      Some (finish_search true app)
    else
      app ←
        (if bool_decide (depth < limit) then
           neighbors ←
             get_neighbors (app.(grid)) current (app.(rows)) (app.(cols));
           for_each (push_unexplored current depth) app (reverse neighbors)
         else Some app);
      Some (set_step_count (app.(step_count) + 1) app).

Definition dls_step (app : App) : option App :=
  match app.(frontier_dl) with
  | [] => Some (finish_search false app)
  | (current, depth) :: rest =>
      expand_limited (app.(depth_limit)) current depth
        (set_frontier_dl rest app)
  end.

Definition iddfs_step (app : App) : option App :=
  match app.(frontier_dl) with
  | [] =>
      let app :=
        set_current_depth_limit (app.(current_depth_limit) + 1) app in
      if bool_decide (app.(current_depth_limit) > 50) then
        Some (finish_search false app)
      else
        let app := set_explored ∅ app in
        let app := set_frontier_dl [(app.(start), 0)] app in
        let app := set_came_from {[app.(start) := None]} app in
        let app :=
          set_cell_states (create_cell_states (app.(rows)) (app.(cols))) app in
        paint (app.(start)) FRONTIER app
  | (current, depth) :: rest =>
      expand_limited (app.(current_depth_limit)) current depth
        (set_frontier_dl rest app)
  end.

(** The bodies of the two loops over the neighbours in
    [bidirectional_step]. *)
Definition forward_visit (current : node) (app : App) (neighbor : node)
  : option App :=
  if bool_decide ((neighbor ∉ app.(explored_forward))
                  ∧ (neighbor ∉ app.(frontier_forward)))
  then
    let app :=
      set_frontier_forward (app.(frontier_forward) ++ [neighbor]) app in
    let app :=
      set_came_from_forward
        (<[neighbor := Some current]> (app.(came_from_forward))) app in
    if bool_decide (neighbor ≠ app.(target))
    then paint neighbor FRONTIER app else Some app
  else Some app.

Definition backward_visit (current : node) (app : App) (neighbor : node)
  : option App :=
  if bool_decide ((neighbor ∉ app.(explored_backward))
                  ∧ (neighbor ∉ app.(frontier_backward)))
  then
    let app :=
      set_frontier_backward (app.(frontier_backward) ++ [neighbor]) app in
    let app :=
      set_came_from_backward
        (<[neighbor := Some current]> (app.(came_from_backward))) app in
    if bool_decide (neighbor ≠ app.(start))
    then paint neighbor FRONTIER2 app else Some app
  else Some app.

(** The forward branch of [bidirectional_step], from [popleft()] to the
    counter increment the branch falls through to. *)
Definition forward_side (current : node) (rest : list node) (app : App)
  : option App :=
  let app := set_frontier_forward rest app in
  let app := set_explored_forward ({[current]} ∪ app.(explored_forward)) app in
  app ← (if bool_decide (current ≠ app.(start))
         then paint current EXPLORED app else Some app);
  if bool_decide (current ∈ app.(explored_backward)) then
    let app := set_meeting_point (Some current) app in
    app ← reconstruct_bidirectional_path app;
    Some (finish_search true app)
  else
    neighbors ← get_neighbors (app.(grid)) current (app.(rows)) (app.(cols));
    app ← for_each (forward_visit current) app neighbors;
    Some (set_step_count (app.(step_count) + 1) app).

(** The backward branch. *)
Definition backward_side (current : node) (rest : list node) (app : App)
  : option App :=
  let app := set_frontier_backward rest app in
  let app := set_explored_backward ({[current]} ∪ app.(explored_backward)) app in
  app ← (if bool_decide (current ≠ app.(target))
         then paint current EXPLORED2 app else Some app);
  if bool_decide (current ∈ app.(explored_forward)) then
    let app := set_meeting_point (Some current) app in
    app ← reconstruct_bidirectional_path app;
    Some (finish_search true app)
  else
    neighbors ← get_neighbors (app.(grid)) current (app.(rows)) (app.(cols));
    app ← for_each (backward_visit current) app neighbors;
    Some (set_step_count (app.(step_count) + 1) app).

(** [if app.step_count % 2 == 0 and app.frontier_forward: ... elif
    app.frontier_backward: ...], then the increment; the first test holds
    when the counter is even and the forward deque has a head to pop. *)
Definition bidirectional_step (app : App) : option App :=
  match app.(frontier_forward), app.(frontier_backward) with
  | [], [] => Some (finish_search false app)
  | _, _ =>
      match (if bool_decide (app.(step_count) `mod` 2 = 0)
             then app.(frontier_forward) else []) with
      | current :: rest => forward_side current rest app
      | [] =>
          match app.(frontier_backward) with
          | current :: rest => backward_side current rest app
          | [] => Some (set_step_count (app.(step_count) + 1) app)
          end
      end
  end.

Definition algorithm_step (app : App) : option App :=
  match app.(selected_algorithm) with
  | BFS => bfs_step app
  | DFS => dfs_step app
  | UCS => ucs_step app
  | DLS => dls_step app
  | IDDFS => iddfs_step app
  | Bidirectional => bidirectional_step app
  end.

(** ** grid.py and app.py: the life cycle of a run *)

Definition clear_search (app : App) : App :=
  let app := set_frontier [] app in
  let app := set_frontier_pq [] app in
  let app := set_frontier_dl [] app in
  let app := set_explored ∅ app in
  let app := set_came_from ∅ app in
  let app := set_final_path [] app in
  let app := set_search_complete false app in
  let app := set_searching false app in
  let app := set_step_count 0 app in
  let app := set_cost_so_far ∅ app in
  let app := set_current_depth_limit 0 app in
  let app := set_frontier_forward [] app in
  let app := set_frontier_backward [] app in
  let app := set_explored_forward ∅ app in
  let app := set_explored_backward ∅ app in
  let app := set_came_from_forward ∅ app in
  let app := set_came_from_backward ∅ app in
  set_meeting_point None app.

(** [start_search], for an application whose Start and Target are placed (the
    fields [start] and [target] are nodes; with either unset the code returns
    before touching the search state). *)
Definition start_search (app : App) : option App :=
  if app.(searching) then Some app
  else
    let app := clear_search app in
    let app :=
      set_cell_states (create_cell_states (app.(rows)) (app.(cols))) app in
    let app := set_searching true app in
    let algo := app.(selected_algorithm) in
    app ←
      match algo with
      | BFS | DFS =>
          let app := set_frontier [app.(start)] app in
          let app := set_came_from {[app.(start) := None]} app in
          paint (app.(start)) FRONTIER app
      | UCS =>
          let app := set_frontier_pq [(0%float, app.(start))] app in
          let app := set_came_from {[app.(start) := None]} app in
          let app := set_cost_so_far {[app.(start) := 0%float]} app in
          paint (app.(start)) FRONTIER app
      | DLS =>
          let app := set_frontier_dl [(app.(start), 0)] app in
          let app := set_came_from {[app.(start) := None]} app in
          paint (app.(start)) FRONTIER app
      | IDDFS =>
          let app := set_current_depth_limit 0 app in
          let app := set_frontier_dl [(app.(start), 0)] app in
          let app := set_came_from {[app.(start) := None]} app in
          paint (app.(start)) FRONTIER app
      | Bidirectional =>
          let app := set_frontier_forward [app.(start)] app in
          let app := set_frontier_backward [app.(target)] app in
          let app := set_came_from_forward {[app.(start) := None]} app in
          let app := set_came_from_backward {[app.(target) := None]} app in
          app ← paint (app.(start)) FRONTIER app;
          paint (app.(target)) FRONTIER2 app
      end;
    Some (set_status_message (MsgSearching algo) app).

(** One turn of the game loop: [update] steps the algorithm while
    [app.searching] holds. *)
Definition update (app : App) : option App :=
  if app.(searching) then algorithm_step app else Some app.

(** [n] turns of the loop. *)
Fixpoint run (n : nat) (app : App) : option App :=
  match n with
  | O => Some app
  | S n' => app' ← update app; run n' app'
  end.

(** The application as [PathfinderApp.__init__] leaves it, with a grid, a
    Start, a Target and an algorithm chosen through the interface. *)
Definition new_app (rows cols : Z) (grid : list (list CellType))
    (start target : node) (algo : Algorithm) (depth_limit : Z) : App :=
  mkApp rows cols grid (create_cell_states rows cols) start target algo
    [] [] [] ∅ ∅ [] false false 0 depth_limit 0 ∅ [] [] ∅ ∅ ∅ ∅ None MsgIdle.

(** Press Run, then let the loop turn [n] times. *)
Definition search (n : nat) (app : App) : option App :=
  app' ← start_search app; run n app'.
(** * Well-formed grids *)

Definition in_bounds (rows cols : Z) (nd : node) : Prop :=
  (0 <= nd.1 < rows) ∧ (0 <= nd.2 < cols).

#[global] Instance in_bounds_dec rows cols nd : Decision (in_bounds rows cols nd).
Proof. unfold in_bounds. apply _. Defined.

(** A list of [rows] rows of [cols] cells each, as [create_grid] and
    [create_cell_states] build them. *)
Definition matrix_dims {A : Type} (m : list (list A)) (rows cols : Z) : Prop :=
  Z.of_nat (length m) = rows ∧
  Forall (fun row => Z.of_nat (length row) = cols) m.

(** The cell is inside the grid and is not a wall. *)
Definition open_cell (grid : list (list CellType)) (rows cols : Z) (nd : node)
  : Prop :=
  in_bounds rows cols nd ∧ get2 grid nd.1 nd.2 ≠ Some WALL.

#[global] Instance open_cell_dec grid rows cols nd :
  Decision (open_cell grid rows cols nd).
Proof. unfold open_cell. apply _. Defined.

Definition move_to (nd : node) (d : Z * Z) : node := (nd.1 + d.1, nd.2 + d.2).

(** One move of the neighbour model: [b] is one of the six displacements away
    from [a], inside the grid and not a wall. *)
Definition edge (grid : list (list CellType)) (rows cols : Z) (a b : node)
  : Prop :=
  (∃ d, d ∈ movements ∧ b = move_to a d) ∧ open_cell grid rows cols b.

(** A sequence of nodes each of which is one move away from the one before. *)
Fixpoint valid_path (grid : list (list CellType)) (rows cols : Z)
    (p : list node) : Prop :=
  match p with
  | [] => True
  | a :: q =>
      match q with
      | [] => True
      | b :: _ => edge grid rows cols a b ∧ valid_path grid rows cols q
      end
  end.

(** A path from [a] to [b]: it starts at [a], ends at [b] and every step is
    a move. *)
Definition path_between (grid : list (list CellType)) (rows cols : Z)
    (a b : node) (p : list node) : Prop :=
  head p = Some a ∧ last p = Some b ∧ valid_path grid rows cols p.

(** The number of moves a node sequence makes. *)
Definition hop_count (p : list node) : nat := (length p - 1)%nat.

(** ** Indexing inside the bounds *)

Lemma py_index_in_range len i :
  0 <= i < len -> py_index len i = Some (Z.to_nat i).
Proof.
  intros H. unfold py_index. rewrite bool_decide_eq_true_2; auto.
Qed.

Lemma py_get_in_range {A : Type} (l : list A) i :
  0 <= i < Z.of_nat (length l) -> py_get l i = l !! Z.to_nat i.
Proof. intros H. unfold py_get. rewrite py_index_in_range; auto. Qed.

Lemma py_set_in_range {A : Type} (l : list A) i v :
  0 <= i < Z.of_nat (length l) -> py_set l i v = Some (<[Z.to_nat i := v]> l).
Proof. intros H. unfold py_set. rewrite py_index_in_range; auto. Qed.

Lemma matrix_dims_row {A : Type} (m : list (list A)) rows cols r :
  matrix_dims m rows cols -> 0 <= r < rows ->
  ∃ row, m !! Z.to_nat r = Some row ∧ Z.of_nat (length row) = cols.
Proof.
  intros [Hlen Hall] Hr.
  destruct (lookup_lt_is_Some_2 m (Z.to_nat r)) as [row Hrow]; [lia|].
  exists row. split; [done|].
  rewrite Forall_forall in Hall. apply Hall.
  apply list_elem_of_lookup. eauto.
Qed.

Lemma get2_in_bounds {A : Type} (m : list (list A)) rows cols r c :
  matrix_dims m rows cols -> in_bounds rows cols (r, c) ->
  ∃ x, get2 m r c = Some x.
Proof.
  intros Hm [Hr Hc]; simpl in *.
  destruct (matrix_dims_row _ _ _ _ Hm Hr) as (row & Hrow & Hlen).
  unfold get2. rewrite py_get_in_range by (destruct Hm; lia).
  rewrite Hrow; simpl. rewrite py_get_in_range by lia.
  apply lookup_lt_is_Some_2. lia.
Qed.

Lemma set2_in_bounds {A : Type} (m : list (list A)) rows cols r c v :
  matrix_dims m rows cols -> in_bounds rows cols (r, c) ->
  ∃ m', set2 m r c v = Some m' ∧ matrix_dims m' rows cols.
Proof.
  intros Hm [Hr Hc]; simpl in *.
  destruct (matrix_dims_row _ _ _ _ Hm Hr) as (row & Hrow & Hlen).
  unfold set2. rewrite py_get_in_range by (destruct Hm; lia).
  rewrite Hrow; simpl. rewrite py_set_in_range by lia; simpl.
  rewrite py_set_in_range by (destruct Hm; lia).
  eexists; split; [reflexivity|].
  destruct Hm as [Hl Hall]. split.
  - rewrite length_insert. done.
  - apply Forall_insert; [done|]. rewrite length_insert. done.
Qed.

Lemma create_dims {A : Type} (rows cols : Z) (x : A) :
  0 <= rows -> 0 <= cols ->
  matrix_dims (replicate (Z.to_nat rows) (replicate (Z.to_nat cols) x))
    rows cols.
Proof.
  intros Hr Hc. split.
  - rewrite length_replicate. lia.
  - apply Forall_replicate. rewrite length_replicate. lia.
Qed.

(** ** The neighbour model *)

(** Whenever the loop of [get_neighbors] returns, it has kept the open cells
    among the six candidates, in the order of [movements]. *)
Lemma get_neighbors_from grid rows cols nd acc mvs ns :
  for_each (fun neighbors '(dr, dc) =>
      if bool_decide (0 <= nd.1 + dr < rows ∧ 0 <= nd.2 + dc < cols) then
        cell ← get2 grid (nd.1 + dr) (nd.2 + dc);
        if decide (cell ≠ WALL)
        then Some (neighbors ++ [(nd.1 + dr, nd.2 + dc)])
        else Some neighbors
      else Some neighbors)
    acc mvs = Some ns ->
  ns = acc ++ filter (open_cell grid rows cols) (move_to nd <$> mvs).
Proof.
  revert acc.
  induction mvs as [|[dr dc] mvs IH]; intros acc H; simpl in *.
  - rewrite app_nil_r. congruence.
  - rewrite filter_cons.
    case_bool_decide as Hb.
    + destruct (get2 grid (nd.1 + dr) (nd.2 + dc)) as [cell|] eqn:Hcell;
        simpl in H; [|discriminate].
      destruct (decide (cell ≠ WALL)) as [Hw|Hw]; simpl in H.
      * apply IH in H as ->. rewrite decide_True.
        -- by rewrite <- app_assoc.
        -- split; [done|]. simpl. rewrite Hcell. congruence.
      * apply IH in H as ->. rewrite decide_False; [done|].
        intros [_ Hne]. simpl in Hne. rewrite Hcell in Hne.
        apply Hw. intros ->. by apply Hne.
    + simpl in H. apply IH in H as ->.
      rewrite decide_False; [done|]. by intros [? _].
Qed.

Lemma get_neighbors_inv grid rows cols nd ns :
  get_neighbors grid nd rows cols = Some ns ->
  ns = filter (open_cell grid rows cols) (move_to nd <$> movements).
Proof.
  destruct nd as [row col]. unfold get_neighbors. intros H.
  apply (get_neighbors_from grid rows cols (row, col) [] movements ns H).
Qed.

(** On a grid of the stated dimensions the look-ups cannot fail. *)
Lemma get_neighbors_from_total grid rows cols (nd : node) acc mvs :
  matrix_dims grid rows cols ->
  ∃ ns,
    for_each (fun neighbors '(dr, dc) =>
        if bool_decide (0 <= nd.1 + dr < rows ∧ 0 <= nd.2 + dc < cols) then
          cell ← get2 grid (nd.1 + dr) (nd.2 + dc);
          if decide (cell ≠ WALL)
          then Some (neighbors ++ [(nd.1 + dr, nd.2 + dc)])
          else Some neighbors
        else Some neighbors)
      acc mvs = Some ns.
Proof.
  intros Hg. revert acc.
  induction mvs as [|[dr dc] mvs IH]; intros acc; simpl; [eauto|].
  case_bool_decide as Hb; simpl; [|apply IH].
  destruct (get2_in_bounds grid rows cols (nd.1 + dr) (nd.2 + dc) Hg Hb)
    as [cell ->]. simpl.
  destruct (decide (cell ≠ WALL)); simpl; apply IH.
Qed.

Lemma get_neighbors_total grid rows cols nd :
  matrix_dims grid rows cols ->
  ∃ ns, get_neighbors grid nd rows cols = Some ns.
Proof.
  intros Hg. destruct nd as [row col]. unfold get_neighbors.
  apply (get_neighbors_from_total grid rows cols (row, col) [] movements Hg).
Qed.

Lemma get_neighbors_eq grid rows cols nd :
  matrix_dims grid rows cols ->
  get_neighbors grid nd rows cols
  = Some (filter (open_cell grid rows cols) (move_to nd <$> movements)).
Proof.
  intros Hg. destruct (get_neighbors_total grid rows cols nd Hg) as [ns Hns].
  rewrite Hns. f_equal. by apply get_neighbors_inv.
Qed.

Lemma elem_of_neighbors grid rows cols a b ns :
  get_neighbors grid a rows cols = Some ns ->
  b ∈ ns ↔ edge grid rows cols a b.
Proof.
  intros Hns. apply get_neighbors_inv in Hns as ->.
  rewrite list_elem_of_filter, list_elem_of_fmap.
  unfold edge. split.
  - intros [Ho (d & -> & Hd)]. split; [eauto|done].
  - intros [(d & Hd & ->) Ho]. split; [done|eauto].
Qed.

Lemma movements_opposite d :
  d ∈ movements -> (- d.1, - d.2) ∈ movements.
Proof.
  unfold movements. rewrite !elem_of_cons, elem_of_nil.
  intros [->|[->|[->|[->|[->|[->|[]]]]]]]; simpl; auto 10.
Qed.

(** The neighbour model is symmetric between open cells. *)
Lemma edge_sym grid rows cols a b :
  open_cell grid rows cols a -> edge grid rows cols a b ->
  edge grid rows cols b a.
Proof.
  intros Ha [(d & Hd & ->) _]. split; [|done].
  exists (- d.1, - d.2). split; [by apply movements_opposite|].
  destruct a as [r c]. unfold move_to; simpl. f_equal; lia.
Qed.

Lemma neighbors_NoDup grid rows cols nd ns :
  get_neighbors grid nd rows cols = Some ns -> NoDup ns.
Proof.
  intros Hns. apply get_neighbors_inv in Hns as ->.
  apply NoDup_filter.
  apply NoDup_fmap_2_strong;
    [|apply (bool_decide_unpack _); by vm_compute].
  intros [d1 d2] [e1 e2] _ _ Heq. unfold move_to in Heq. simpl in Heq.
  injection Heq as H1 H2. f_equal; lia.
Qed.

Lemma neighbors_length grid rows cols nd ns :
  get_neighbors grid nd rows cols = Some ns -> (length ns <= 6)%nat.
Proof.
  intros Hns. apply get_neighbors_inv in Hns as ->.
  etrans; [apply length_filter|]. by rewrite length_fmap.
Qed.

(** * Runs on small grids *)

(** A corridor of two cells: Start, Target. *)
Definition corridor2 : list (list CellType) := [[START; TARGET]].

(** A corridor of three cells: Start, an empty cell, Target. *)
Definition corridor3 : list (list CellType) := [[START; EMPTY; TARGET]].

(** A corridor of five cells whose Target is walled off from the Start. *)
Definition corridor5 : list (list CellType) :=
  [[START; EMPTY; EMPTY; WALL; TARGET]].

(** A single cell that is both Start and Target (the cell keeps the type of
    the marker placed last). *)
Definition single_cell : list (list CellType) := [[TARGET]].

(** An open two by two block. *)
Definition block22 : list (list CellType) := [[START; EMPTY]; [EMPTY; TARGET]].

(** An open two by two block on the left, the Target behind a wall. *)
Definition walled24 : list (list CellType) :=
  [[START; EMPTY; WALL; TARGET]; [EMPTY; EMPTY; WALL; EMPTY]].

(** ** The reconstructed path repeats the Start *)

(** C1 (breadth-first search reports a minimum hop-count path), on the
    corridor Start, Target.  The search succeeds in two steps; the reported
    path is Start, Start, Target, which makes two hops (the status line reads
    a path of 3 nodes), while the single move Start to Target is a
    wall-avoiding path of one hop. *)
Theorem bfs_reported_hops_corridor2 :
  final_path <$> search 2 (new_app 1 2 corridor2 (0, 0) (0, 1) BFS 20)
    = Some [(0, 0); (0, 0); (0, 1)]
  ∧ status_message <$> search 2 (new_app 1 2 corridor2 (0, 0) (0, 1) BFS 20)
    = Some (MsgPathFound BFS 1 2 3 None)
  ∧ hop_count [(0, 0); (0, 0); (0, 1)] = 2%nat
  ∧ path_between corridor2 1 2 (0, 0) (0, 1) [(0, 0); (0, 1)]
  ∧ hop_count [(0, 0); (0, 1)] = 1%nat.
Proof.
  split; [by vm_compute|]. split; [by vm_compute|]. split; [done|].
  split; [|done].
  split; [done|]. split; [done|]. simpl. split; [|done].
  split.
  - exists (0, 1). split; [|done]. unfold movements. set_solver.
  - split; [by vm_compute|]. by vm_compute.
Qed.

(** C4 (the reconstructed sequence is the chain Start to Target with each
    node once), on the same corridor, for each unidirectional algorithm: the
    sequence is Start, Start, Target. *)
Theorem unidirectional_path_repeats_start :
  Forall (fun algo =>
      final_path <$> search 4 (new_app 1 2 corridor2 (0, 0) (0, 1) algo 20)
        = Some [(0, 0); (0, 0); (0, 1)]
      ∧ searching <$> search 4 (new_app 1 2 corridor2 (0, 0) (0, 1) algo 20)
        = Some false)
    [BFS; DFS; UCS; DLS; IDDFS]
  ∧ ¬ NoDup [(0, 0); (0, 0); (0, 1) : node].
Proof.
  split.
  - repeat (apply Forall_cons; split; [by vm_compute|]). apply Forall_nil_2.
  - intros H. apply NoDup_cons in H as [Hin _]. apply Hin. set_solver.
Qed.

(** C5 (the bidirectional path has no duplicate node and only neighbour
    moves), on the corridor Start, empty, Target: the two searches meet on the
    middle cell and the path is Start, Start, middle, Target, Target.  It has
    duplicates, and its first step, Start to Start, is no move. *)
Theorem bidirectional_path_repeats_ends :
  final_path <$> search 4 (new_app 1 3 corridor3 (0, 0) (0, 2) Bidirectional 20)
    = Some [(0, 0); (0, 0); (0, 1); (0, 2); (0, 2)]
  ∧ meeting_point
      <$> search 4 (new_app 1 3 corridor3 (0, 0) (0, 2) Bidirectional 20)
    = Some (Some (0, 1))
  ∧ ¬ NoDup [(0, 0); (0, 0); (0, 1); (0, 2); (0, 2) : node]
  ∧ ¬ valid_path corridor3 1 3 [(0, 0); (0, 0); (0, 1); (0, 2); (0, 2)].
Proof.
  split; [by vm_compute|]. split; [by vm_compute|]. split.
  - intros H. apply NoDup_cons in H as [Hin _]. apply Hin. set_solver.
  - simpl. intros [[(d & Hd & Heq) _] _].
    unfold movements in Hd. unfold move_to in Heq.
    set_unfold. destruct Hd as [->|[->|[->|[->|[->|[->|[]]]]]]];
      simpl in Heq; discriminate.
Qed.

(** ** Start equal to Target *)

(** C3, as stated (every algorithm succeeds at once, with zero expansion
    steps counted), fails for bidirectional search on the grid of one cell:
    the first tick expands the Start on the forward side and leaves the search
    running with the counter at 1; the second tick, on the backward side,
    reports success. *)
Lemma start_is_target_bidirectional_two_ticks :
  (fun app => (app.(searching), app.(step_count)))
    <$> search 1 (new_app 1 1 single_cell (0, 0) (0, 0) Bidirectional 20)
    = Some (true, 1)
  ∧ (fun app => (app.(searching), app.(step_count), app.(status_message)))
    <$> search 2 (new_app 1 1 single_cell (0, 0) (0, 0) Bidirectional 20)
    = Some (false, 1, MsgPathFound Bidirectional 1 2 2 None).
Proof. split; by vm_compute. Qed.

(** ** Frontier membership at push time *)

(** C6, as stated for depth-first search (neighbours are pushed with no look
    at the frontier), fails on the open two by two block.  After the first
    step the stack holds (0,1), (1,0), (1,1).  The second step pops (0,1),
    whose neighbour (1,1) is not explored: depth-first search does not push it
    again, depth-limited search does. *)
Lemma dfs_checks_frontier_at_push :
  frontier <$> search 1 (new_app 2 2 block22 (0, 0) (1, 1) DFS 20)
    = Some [(0, 1); (1, 0); (1, 1)]
  ∧ get_neighbors block22 (0, 1) 2 2 = Some [(1, 1); (0, 0)]
  ∧ (fun app => (app.(frontier), elements (app.(explored))))
    <$> search 2 (new_app 2 2 block22 (0, 0) (1, 1) DFS 20)
    = Some ([(1, 0); (1, 1)], [(0, 1); (0, 0)])
  ∧ frontier_dl <$> search 2 (new_app 2 2 block22 (0, 0) (1, 1) DLS 20)
    = Some [((1, 1), 2); ((1, 0), 1); ((1, 1), 1)].
Proof. repeat split; by vm_compute. Qed.

(** ** The idle tick of bidirectional search *)

(** C7 (on every tick with a non-empty frontier exactly one side expands), on
    the corridor Start, empty, empty, wall, Target.  After three ticks the
    counter is 3, the backward frontier is empty and the forward frontier
    holds (0,2).  The fourth tick pops nothing and expands nothing: only the
    counter moves, to 4, and the forward side expands on the fifth tick. *)
Theorem bidirectional_idle_tick :
  (fun app =>
     (app.(frontier_forward), app.(frontier_backward),
      elements (app.(explored_forward)), elements (app.(explored_backward)),
      app.(step_count), app.(searching)))
    <$> search 3 (new_app 1 5 corridor5 (0, 0) (0, 4) Bidirectional 20)
    = Some ([(0, 2)], [], [(0, 1); (0, 0)], [(0, 4)], 3, true)
  ∧ (fun app =>
     (app.(frontier_forward), app.(frontier_backward),
      elements (app.(explored_forward)), elements (app.(explored_backward)),
      app.(step_count), app.(searching)))
    <$> search 4 (new_app 1 5 corridor5 (0, 0) (0, 4) Bidirectional 20)
    = Some ([(0, 2)], [], [(0, 1); (0, 0)], [(0, 4)], 4, true)
  ∧ (fun app =>
     (app.(frontier_forward), app.(frontier_backward),
      elements (app.(explored_forward)), elements (app.(explored_backward)),
      app.(step_count), app.(searching)))
    <$> search 5 (new_app 1 5 corridor5 (0, 0) (0, 4) Bidirectional 20)
    = Some ([], [], [(0, 2); (0, 1); (0, 0)], [(0, 4)], 5, true).
Proof. repeat split; by vm_compute. Qed.

(** ** The cost of a diagonal move *)

(** C8, as stated (a diagonal move costs exactly the square root of 2), fails
    at the move from (0,0) to (1,1), a neighbour move of the open block: the
    cost is the literal 1.414, which is neither the double nearest to the
    square root of 2 nor a number whose square is 2. *)
Lemma diagonal_cost_is_not_sqrt2 :
  get_neighbors block22 (0, 0) 2 2 = Some [(0, 1); (1, 0); (1, 1)]
  ∧ get_move_cost (0, 0) (1, 1) = 1.414%float
  ∧ get_move_cost (0, 0) (1, 1) ≠ PrimFloat.sqrt 2%float
  ∧ PrimFloat.mul (get_move_cost (0, 0) (1, 1)) (get_move_cost (0, 0) (1, 1))
    ≠ 2%float.
Proof.
  split; [by vm_compute|]. split; [by vm_compute|]. split.
  - intros H. apply (f_equal (PrimFloat.eqb 1.414%float)) in H.
    vm_compute in H. discriminate.
  - intros H. apply (f_equal (PrimFloat.eqb 2%float)) in H.
    vm_compute in H. discriminate.
Qed.

(** ** Steps that leave the counter alone *)


(** * The cost of a move *)

(** A move that keeps the row or the column. *)
Definition axis_aligned (a b : node) : Prop := a.1 = b.1 ∨ a.2 = b.2.

#[global] Instance axis_aligned_dec a b : Decision (axis_aligned a b).
Proof. unfold axis_aligned. apply _. Defined.

(** C8, amended: for every pair of grid-adjacent nodes the move cost is
    exactly 1.0 when the move is axis-aligned and exactly the constant 1.414
    (the double Python reads for that literal, an approximation of the square
    root of 2) when it is one of the two diagonal moves, which are (+1,+1) and
    (-1,-1). *)
Theorem get_move_cost_of_move grid rows cols (a b : node) :
  edge grid rows cols a b ->
  (axis_aligned a b -> get_move_cost a b = 1.0%float)
  ∧ (¬ axis_aligned a b ->
     get_move_cost a b = 1.414%float
     ∧ (b = move_to a (1, 1) ∨ b = move_to a (-1, -1))).
Proof.
  intros [(d & Hd & ->) _]. destruct a as [r c].
  unfold movements in Hd. unfold axis_aligned, get_move_cost, move_to.
  set_unfold.
  destruct Hd as [->|[->|[->|[->|[->|[->|[]]]]]]]; simpl;
    (split; [intros Hax|intros Hax]);
    try (case_bool_decide; [lia|reflexivity]);
    try (exfalso; lia);
    try (exfalso; apply Hax; lia).
  - split; [case_bool_decide; [reflexivity|lia]|by left].
  - split; [case_bool_decide; [reflexivity|lia]|by right].
Qed.

Lemma get_move_cost_of_move_witness :
  edge block22 2 2 (0, 0) (1, 1)
  ∧ ¬ axis_aligned (0, 0) (1, 1)
  ∧ get_move_cost (0, 0) (1, 1) = 1.414%float
  ∧ edge block22 2 2 (0, 0) (0, 1)
  ∧ get_move_cost (0, 0) (0, 1) = 1.0%float.
Proof.
  assert (E1 : edge block22 2 2 (0, 0) (1, 1)).
  { split; [exists (1, 1); split; [unfold movements; set_solver|done]|].
    split; by vm_compute. }
  assert (E2 : edge block22 2 2 (0, 0) (0, 1)).
  { split; [exists (0, 1); split; [unfold movements; set_solver|done]|].
    split; by vm_compute. }
  assert (N1 : ¬ axis_aligned (0, 0) (1, 1)).
  { unfold axis_aligned; simpl. lia. }
  split; [exact E1|]. split; [exact N1|].
  split; [exact (proj1 (proj2 (get_move_cost_of_move _ _ _ _ _ E1) N1))|].
  split; [exact E2|].
  apply (proj1 (get_move_cost_of_move _ _ _ _ _ E2)).
  unfold axis_aligned; simpl. lia.
Defined.

(** * Overlay, predecessor maps and loops *)

Lemma paint_inv nd state app app' :
  paint nd state app = Some app' ->
  ∃ cs, set2 (app.(cell_states)) nd.1 nd.2 state = Some cs
        ∧ app' = set_cell_states cs app.
Proof.
  unfold paint. intros H.
  destruct (set2 (app.(cell_states)) nd.1 nd.2 state) as [cs|] eqn:E;
    simpl in H; [|discriminate].
  exists cs. split; [done|]. congruence.
Qed.

Lemma filter_ext_in {A : Type} (P Q : A -> Prop)
    `{!∀ x, Decision (P x), !∀ x, Decision (Q x)} (l : list A) :
  (∀ x, x ∈ l -> P x ↔ Q x) -> filter P l = filter Q l.
Proof.
  induction l as [|x l IH]; intros Hext; [done|].
  rewrite !filter_cons. rewrite IH by (intros y Hy; apply Hext; set_solver).
  destruct (decide (P x)) as [HP|HP], (decide (Q x)) as [HQ|HQ]; try done;
    exfalso; [apply HQ|apply HP]; apply (Hext x); set_solver.
Qed.


(** * Writing into the overlay *)

Lemma py_index_lt len i k : py_index len i = Some k -> (Z.of_nat k < len).
Proof.
  unfold py_index. intros Hk. repeat case_bool_decide; simplify_eq; lia.
Qed.

Lemma py_get_set_eq {A : Type} (l l' : list A) i v :
  py_set l i v = Some l' -> py_get l' i = Some v.
Proof.
  unfold py_set, py_get. intros H.
  destruct (py_index (Z.of_nat (length l)) i) as [k|] eqn:E; simpl in H;
    [|discriminate].
  injection H as <-. rewrite length_insert, E. simpl.
  apply list_lookup_insert_eq. apply py_index_lt in E. lia.
Qed.

Lemma py_set_length {A : Type} (l l' : list A) i v :
  py_set l i v = Some l' -> length l' = length l.
Proof.
  unfold py_set. intros H.
  destruct (py_index (Z.of_nat (length l)) i) as [k|] eqn:E; simpl in H;
    [|discriminate].
  injection H as <-. apply length_insert.
Qed.

Lemma py_get_set_ne {A : Type} (l l' : list A) i j v :
  py_set l i v = Some l' ->
  py_index (Z.of_nat (length l)) i ≠ py_index (Z.of_nat (length l)) j ->
  py_get l' j = py_get l j.
Proof.
  unfold py_set, py_get. intros H Hne.
  destruct (py_index (Z.of_nat (length l)) i) as [k|] eqn:E; simpl in H;
    [|discriminate].
  injection H as <-. rewrite length_insert.
  destruct (py_index (Z.of_nat (length l)) j) as [k'|] eqn:E'; simpl; [|done].
  apply list_lookup_insert_ne. congruence.
Qed.

(** Writing one cell keeps the shape of the matrix. *)
Lemma set2_dims {A : Type} (m m' : list (list A)) rows cols r c v :
  set2 m r c v = Some m' -> matrix_dims m rows cols -> matrix_dims m' rows cols.
Proof.
  unfold set2, py_get. intros H [Hlen Hall].
  destruct (py_index (Z.of_nat (length m)) r) as [k|] eqn:Ek; simpl in H;
    [|discriminate].
  destruct (m !! k) as [row|] eqn:Erow; simpl in H; [|discriminate].
  destruct (py_set row c v) as [row'|] eqn:Eset; simpl in H; [|discriminate].
  unfold py_set in H. rewrite Ek in H. simpl in H. injection H as <-.
  split; [by rewrite length_insert|].
  apply Forall_insert; [done|].
  rewrite (py_set_length _ _ _ _ Eset).
  rewrite Forall_forall in Hall. apply Hall.
  apply list_elem_of_lookup. eauto.
Qed.

Lemma set2_get2_eq {A : Type} (m m' : list (list A)) r c v :
  set2 m r c v = Some m' -> get2 m' r c = Some v.
Proof.
  unfold set2, get2. intros H.
  destruct (py_get m r) as [row|] eqn:Erow; simpl in H; [|discriminate].
  destruct (py_set row c v) as [row'|] eqn:Eset; simpl in H; [|discriminate].
  rewrite (py_get_set_eq _ _ _ _ H). simpl.
  by apply (py_get_set_eq row).
Qed.

(** Inside the bounds, writing one cell leaves every other cell as it was. *)
Lemma set2_get2_ne {A : Type} (m m' : list (list A)) rows cols a b v :
  matrix_dims m rows cols -> in_bounds rows cols a -> in_bounds rows cols b ->
  a ≠ b ->
  set2 m a.1 a.2 v = Some m' -> get2 m' b.1 b.2 = get2 m b.1 b.2.
Proof.
  destruct a as [r c], b as [r' c']. simpl.
  intros Hm [Hr Hc] [Hr' Hc'] Hne H. simpl in *.
  destruct (matrix_dims_row _ _ _ _ Hm Hr) as (row & Hrow & Hlen).
  pose proof Hm as [Hl _].
  unfold set2 in H. rewrite py_get_in_range in H by lia.
  rewrite Hrow in H. simpl in H.
  rewrite py_set_in_range in H by lia. simpl in H.
  rewrite py_set_in_range in H by lia. injection H as <-.
  unfold get2. rewrite !py_get_in_range by (rewrite ?length_insert; lia).
  destruct (decide (r = r')) as [->|Hrr].
  - rewrite list_lookup_insert_eq by lia. rewrite Hrow. simpl.
    rewrite !py_get_in_range by (rewrite ?length_insert; lia).
    apply list_lookup_insert_ne. intros Heq. apply Hne. f_equal. lia.
  - rewrite list_lookup_insert_ne by lia. done.
Qed.

(** A cell that could be read before a write can be read after it. *)
Lemma set2_get2_is_Some {A : Type} (m m' : list (list A)) r c r' c' v :
  set2 m r c v = Some m' -> is_Some (get2 m' r' c') ↔ is_Some (get2 m r' c').
Proof.
  unfold set2, get2, py_get, py_set. intros H.
  destruct (py_index (Z.of_nat (length m)) r) as [k|] eqn:Ek; simpl in H;
    [|discriminate].
  destruct (m !! k) as [row|] eqn:Erow; simpl in H; [|discriminate].
  destruct (py_index (Z.of_nat (length row)) c) as [kc|] eqn:Ekc; simpl in H;
    [|discriminate].
  injection H as <-. rewrite length_insert.
  destruct (py_index (Z.of_nat (length m)) r') as [k'|] eqn:Ek'; simpl;
    [|done].
  destruct (decide (k = k')) as [<-|Hk].
  - rewrite list_lookup_insert_eq by (by eapply lookup_lt_Some).
    rewrite Erow. simpl. rewrite length_insert.
    destruct (py_index (Z.of_nat (length row)) c') as [kc'|]; simpl; [|done].
    rewrite !lookup_lt_is_Some, length_insert. done.
  - rewrite list_lookup_insert_ne by done. done.
Qed.

(** * The loops in closed form *)

(** Painting the cells of a list, one after the other, in one state. *)
Fixpoint paint_list (cs : list (list CellState)) (l : list node)
    (state : CellState) : option (list (list CellState)) :=
  match l with
  | [] => Some cs
  | nd :: l' => cs' ← set2 cs nd.1 nd.2 state; paint_list cs' l' state
  end.

(** The predecessor map after the nodes of a list are discovered from
    [current]: the last discoverer wins (BFS and bidirectional search
    discover a node once), or the first one does (DFS, DLS, IDDFS). *)
Definition record_all (current : node) (cf : gmap node (option node))
    (l : list node) : gmap node (option node) :=
  foldl (fun m n => <[n := Some current]> m) cf l.

Definition record_first (current : node) (cf : gmap node (option node))
    (l : list node) : gmap node (option node) :=
  foldl (fun m n => if decide (n ∈ dom m) then m
                    else <[n := Some current]> m) cf l.

Lemma paint_list_app cs l1 l2 state :
  paint_list cs (l1 ++ l2) state
  = cs' ← paint_list cs l1 state; paint_list cs' l2 state.
Proof.
  revert cs. induction l1 as [|x l1 IH]; intros cs; simpl; [done|].
  destruct (set2 cs x.1 x.2 state) as [cs1|]; simpl; [apply IH|done].
Qed.

Lemma paint_list_total cs rows cols l state :
  matrix_dims cs rows cols -> Forall (in_bounds rows cols) l ->
  ∃ cs', paint_list cs l state = Some cs' ∧ matrix_dims cs' rows cols.
Proof.
  intros Hcs Hl. revert cs Hcs.
  induction Hl as [|[r c] l Hx Hl IH]; intros cs Hcs; simpl; [eauto|].
  destruct (set2_in_bounds cs rows cols r c state Hcs Hx) as (cs1 & -> & H1).
  simpl. by apply IH.
Qed.

Lemma paint_list_dims cs cs' rows cols l state :
  paint_list cs l state = Some cs' -> matrix_dims cs rows cols ->
  matrix_dims cs' rows cols.
Proof.
  revert cs. induction l as [|x l IH]; intros cs H Hcs; simpl in H.
  - congruence.
  - destruct (set2 cs x.1 x.2 state) as [cs1|] eqn:E; simpl in H;
      [|discriminate].
    eapply IH; [done|]. by eapply set2_dims.
Qed.

(** A cell outside the painted list keeps its state. *)
Lemma paint_list_other cs cs' rows cols l state b :
  matrix_dims cs rows cols -> Forall (in_bounds rows cols) l ->
  in_bounds rows cols b -> b ∉ l ->
  paint_list cs l state = Some cs' -> get2 cs' b.1 b.2 = get2 cs b.1 b.2.
Proof.
  intros Hcs Hl Hb. revert cs Hcs.
  induction Hl as [|x l Hx Hl IH]; intros cs Hcs Hnin H; simpl in H.
  - congruence.
  - destruct (set2 cs x.1 x.2 state) as [cs1|] eqn:E; simpl in H;
      [|discriminate].
    apply not_elem_of_cons in Hnin as [Hne Hnin].
    rewrite (IH cs1); [|by eapply set2_dims|done|done].
    apply (set2_get2_ne cs cs1 rows cols x b state); [done|done|done|congruence|done].
Qed.

(** A painted cell holds the state painted. *)
Lemma paint_list_elem cs cs' rows cols l state b :
  matrix_dims cs rows cols -> Forall (in_bounds rows cols) l ->
  b ∈ l ->
  paint_list cs l state = Some cs' -> get2 cs' b.1 b.2 = Some state.
Proof.
  intros Hcs Hl. revert cs Hcs.
  induction Hl as [|x l Hx Hl IH]; intros cs Hcs Hin H; simpl in H.
  - by apply elem_of_nil in Hin.
  - destruct (set2 cs x.1 x.2 state) as [cs1|] eqn:E; simpl in H;
      [|discriminate].
    destruct (decide (b ∈ l)) as [Hbl|Hbl].
    + eapply IH; [by eapply set2_dims|done|done].
    + apply elem_of_cons in Hin as [->|Hin]; [|done].
      rewrite (paint_list_other cs1 cs' rows cols l state x);
        [by eapply set2_get2_eq|by eapply set2_dims|done|done|done|done].
Qed.

(** A cell that could be read before can be read after. *)
Lemma paint_list_is_Some cs cs' l state r c :
  paint_list cs l state = Some cs' ->
  is_Some (get2 cs' r c) ↔ is_Some (get2 cs r c).
Proof.
  revert cs. induction l as [|x l IH]; intros cs H; simpl in H.
  - by injection H as <-.
  - destruct (set2 cs x.1 x.2 state) as [cs1|] eqn:E; simpl in H;
      [|discriminate].
    rewrite (IH cs1 H). by eapply set2_get2_is_Some.
Qed.

Lemma record_all_lookup current cf l k :
  record_all current cf l !! k
  = if decide (k ∈ l) then Some (Some current) else cf !! k.
Proof.
  unfold record_all. revert cf.
  induction l as [|x l IH]; intros cf.
  - destruct (decide (k ∈ [])) as [H|H]; [by apply elem_of_nil in H|done].
  - simpl foldl. rewrite IH.
    destruct (decide (k ∈ l)) as [Hl|Hl], (decide (k ∈ x :: l)) as [Hxl|Hxl];
      try done.
    + exfalso. apply Hxl. by right.
    + apply elem_of_cons in Hxl as [->|?]; [|done].
      by rewrite lookup_insert_eq.
    + rewrite lookup_insert_ne; [done|]. intros <-. apply Hxl. by left.
Qed.

Lemma record_first_lookup current cf l k :
  record_first current cf l !! k
  = match cf !! k with
    | Some p => Some p
    | None => if decide (k ∈ l) then Some (Some current) else None
    end.
Proof.
  unfold record_first. revert cf.
  induction l as [|x l IH]; intros cf.
  - destruct (decide (k ∈ [])) as [H|H]; [by apply elem_of_nil in H|].
    simpl. by destruct (cf !! k).
  - simpl foldl. rewrite IH.
    destruct (decide (x ∈ dom cf)) as [Hd|Hd].
    + destruct (cf !! k) eqn:Ek; [done|].
      assert (k ≠ x).
      { intros ->. apply elem_of_dom in Hd as [? Hd]. congruence. }
      destruct (decide (k ∈ l)) as [Hl|Hl],
               (decide (k ∈ x :: l)) as [Hxl|Hxl]; try done.
      * exfalso. apply Hxl. by right.
      * apply elem_of_cons in Hxl as [->|?]; done.
    + apply not_elem_of_dom in Hd.
      destruct (decide (k = x)) as [->|Hne].
      * rewrite lookup_insert_eq, Hd.
        destruct (decide (x ∈ x :: l)) as [?|Hxl]; [done|].
        exfalso. apply Hxl. by left.
      * rewrite lookup_insert_ne by done.
        destruct (cf !! k); [done|].
        destruct (decide (k ∈ l)) as [Hl|Hl],
                 (decide (k ∈ x :: l)) as [Hxl|Hxl]; try done.
        -- exfalso. apply Hxl. by right.
        -- apply elem_of_cons in Hxl as [->|?]; done.
Qed.

(** The neighbours a queue-based search discovers: those that are neither
    visited nor in the queue. *)
Definition discovered (visited : gset node) (queue : list node)
    (l : list node) : list node :=
  filter (fun n => (n ∉ visited) ∧ (n ∉ queue)) l.

Lemma discovered_cons_True visited queue x l :
  x ∉ visited -> x ∉ queue -> x ∉ l ->
  discovered visited queue (x :: l) = x :: discovered visited (queue ++ [x]) l.
Proof.
  intros Hv Hq Hl. unfold discovered. rewrite filter_cons_True by done.
  f_equal. apply filter_ext_in. intros y Hy.
  rewrite not_elem_of_app, list_elem_of_singleton.
  assert (y ≠ x) by (by intros ->). tauto.
Qed.

Lemma discovered_cons_True_stack visited stack x l :
  x ∉ visited -> x ∉ stack -> x ∉ l ->
  discovered visited stack (x :: l) = x :: discovered visited (x :: stack) l.
Proof.
  intros Hv Hq Hl. unfold discovered. rewrite filter_cons_True by done.
  f_equal. apply filter_ext_in. intros y Hy.
  rewrite not_elem_of_cons.
  assert (y ≠ x) by (by intros ->). tauto.
Qed.

Lemma discovered_cons_False visited queue x l :
  ¬ ((x ∉ visited) ∧ (x ∉ queue)) ->
  discovered visited queue (x :: l) = discovered visited queue l.
Proof. intros H. unfold discovered. by rewrite filter_cons_False. Qed.

(** The loop of [bfs_step] in closed form: the discovered neighbours join the
    queue in order, each gets [current] as predecessor, and each but the
    Target is painted Frontier. *)
Lemma bfs_visit_loop current l app :
  NoDup l ->
  for_each (bfs_visit current) app l
  = let new := discovered (app.(explored)) (app.(frontier)) l in
    cs ← paint_list (app.(cell_states))
           (filter (fun n => n ≠ app.(target)) new) FRONTIER;
    Some (set_cell_states cs
            (set_came_from (record_all current (app.(came_from)) new)
               (set_frontier (app.(frontier) ++ new) app))).
Proof.
  revert app. induction l as [|x l IH]; intros app Hnd.
  - simpl. by rewrite app_nil_r.
  - apply NoDup_cons in Hnd as [Hx Hnd]. simpl for_each.
    set (loop := for_each (bfs_visit current)) in *.
    unfold bfs_visit.
    case_bool_decide as Hp.
    + destruct Hp as [Hv Hq].
      rewrite (discovered_cons_True _ _ _ _ Hv Hq Hx). cbv zeta.
      case_bool_decide as Ht; simpl in Ht.
      * rewrite filter_cons_True by done. simpl paint_list.
        unfold paint. simpl.
        destruct (set2 (app.(cell_states)) x.1 x.2 FRONTIER) as [cs1|];
          simpl; [|done].
        rewrite (IH _ Hnd). simpl.
        destruct (paint_list cs1 _ FRONTIER) as [cs|]; simpl; [|done].
        by rewrite <- app_assoc.
      * rewrite filter_cons_False by (simpl; congruence). simpl.
        rewrite (IH _ Hnd). simpl.
        destruct (paint_list _ _ FRONTIER) as [cs|]; simpl; [|done].
        by rewrite <- app_assoc.
    + rewrite (discovered_cons_False _ _ _ _ Hp). simpl. by apply IH.
Qed.

(** The forward loop of [bidirectional_step] in closed form. *)
Lemma forward_visit_loop current l app :
  NoDup l ->
  for_each (forward_visit current) app l
  = let new := discovered (app.(explored_forward)) (app.(frontier_forward)) l in
    cs ← paint_list (app.(cell_states))
           (filter (fun n => n ≠ app.(target)) new) FRONTIER;
    Some (set_cell_states cs
            (set_came_from_forward (record_all current (app.(came_from_forward)) new)
               (set_frontier_forward (app.(frontier_forward) ++ new) app))).
Proof.
  revert app. induction l as [|x l IH]; intros app Hnd.
  - simpl. by rewrite app_nil_r.
  - apply NoDup_cons in Hnd as [Hx Hnd]. simpl for_each.
    set (loop := for_each (forward_visit current)) in *.
    unfold forward_visit.
    case_bool_decide as Hp.
    + destruct Hp as [Hv Hq].
      rewrite (discovered_cons_True _ _ _ _ Hv Hq Hx). cbv zeta.
      case_bool_decide as Ht; simpl in Ht.
      * rewrite filter_cons_True by done. simpl paint_list.
        unfold paint. simpl.
        destruct (set2 (app.(cell_states)) x.1 x.2 FRONTIER) as [cs1|];
          simpl; [|done].
        rewrite (IH _ Hnd). simpl.
        destruct (paint_list cs1 _ FRONTIER) as [cs|]; simpl; [|done].
        by rewrite <- app_assoc.
      * rewrite filter_cons_False by (simpl; congruence). simpl.
        rewrite (IH _ Hnd). simpl.
        destruct (paint_list _ _ FRONTIER) as [cs|]; simpl; [|done].
        by rewrite <- app_assoc.
    + rewrite (discovered_cons_False _ _ _ _ Hp). simpl. by apply IH.
Qed.

(** The backward loop of [bidirectional_step] in closed form. *)
Lemma backward_visit_loop current l app :
  NoDup l ->
  for_each (backward_visit current) app l
  = let new := discovered (app.(explored_backward)) (app.(frontier_backward)) l in
    cs ← paint_list (app.(cell_states))
           (filter (fun n => n ≠ app.(start)) new) FRONTIER2;
    Some (set_cell_states cs
            (set_came_from_backward (record_all current (app.(came_from_backward)) new)
               (set_frontier_backward (app.(frontier_backward) ++ new) app))).
Proof.
  revert app. induction l as [|x l IH]; intros app Hnd.
  - simpl. by rewrite app_nil_r.
  - apply NoDup_cons in Hnd as [Hx Hnd]. simpl for_each.
    set (loop := for_each (backward_visit current)) in *.
    unfold backward_visit.
    case_bool_decide as Hp.
    + destruct Hp as [Hv Hq].
      rewrite (discovered_cons_True _ _ _ _ Hv Hq Hx). cbv zeta.
      case_bool_decide as Ht; simpl in Ht.
      * rewrite filter_cons_True by done. simpl paint_list.
        unfold paint. simpl.
        destruct (set2 (app.(cell_states)) x.1 x.2 FRONTIER2) as [cs1|];
          simpl; [|done].
        rewrite (IH _ Hnd). simpl.
        destruct (paint_list cs1 _ FRONTIER2) as [cs|]; simpl; [|done].
        by rewrite <- app_assoc.
      * rewrite filter_cons_False by (simpl; congruence). simpl.
        rewrite (IH _ Hnd). simpl.
        destruct (paint_list _ _ FRONTIER2) as [cs|]; simpl; [|done].
        by rewrite <- app_assoc.
    + rewrite (discovered_cons_False _ _ _ _ Hp). simpl. by apply IH.
Qed.

(** The loop of [dfs_step] in closed form: the discovered neighbours go on
    the stack, the one handled last on top; a node keeps the predecessor it
    has. *)
Lemma dfs_visit_loop current l app :
  NoDup l ->
  for_each (dfs_visit current) app l
  = let new := discovered (app.(explored)) (app.(frontier)) l in
    cs ← paint_list (app.(cell_states))
           (filter (fun n => n ≠ app.(target)) new) FRONTIER;
    Some (set_cell_states cs
            (set_came_from (record_first current (app.(came_from)) new)
               (set_frontier (reverse new ++ app.(frontier)) app))).
Proof.
  revert app. induction l as [|x l IH]; intros app Hnd.
  - done.
  - apply NoDup_cons in Hnd as [Hx Hnd]. simpl for_each.
    set (loop := for_each (dfs_visit current)) in *.
    unfold dfs_visit.
    destruct (decide ((x ∉ app.(explored)) ∧ (x ∉ app.(frontier))))
      as [[Hv Hq]|Hp].
    + rewrite (bool_decide_eq_true_2 _ Hv), (bool_decide_eq_true_2 _ Hq).
      rewrite (discovered_cons_True_stack _ _ _ _ Hv Hq Hx). cbv zeta.
      unfold record_first at 1. simpl foldl. fold (record_first current).
      rewrite reverse_cons, <- app_assoc. cbn [List.app].
      simpl.
      destruct (decide (x ∈ dom (app.(came_from)))) as [Hcf|Hcf];
        [rewrite (bool_decide_eq_false_2 (x ∉ dom (app.(came_from))))
           by tauto
        |rewrite (bool_decide_eq_true_2 (x ∉ dom (app.(came_from))))
           by done];
        (destruct (decide (x = app.(target))) as [Ht|Ht];
         [rewrite (bool_decide_eq_false_2 (x ≠ app.(target)))
            by (simpl; tauto);
          rewrite (filter_cons_False (fun n => n ≠ app.(target)))
            by (simpl; tauto); simpl
         |rewrite (bool_decide_eq_true_2 (x ≠ app.(target))) by done;
          rewrite (filter_cons_True (fun n => n ≠ app.(target))) by done;
          simpl paint_list; unfold paint; simpl;
          destruct (set2 (app.(cell_states)) x.1 x.2 FRONTIER) as [cs1|];
          simpl; [|done]]);
        rewrite (IH _ Hnd); simpl;
        by destruct (paint_list _ _ FRONTIER).
    + rewrite (discovered_cons_False _ _ _ _ Hp).
      assert ((if bool_decide (x ∉ app.(explored))
               then if bool_decide (x ∉ app.(frontier))
                    then None else Some app
               else Some app) = Some app) as Hskip.
      { repeat case_bool_decide; tauto. }
      repeat case_bool_decide; try tauto; simpl; by apply IH.
Qed.

(** The loop of DLS and IDDFS in closed form: every neighbour that is not
    visited goes on the stack, with the depth of [current] plus one. *)
Lemma push_unexplored_loop current depth l app :
  for_each (push_unexplored current depth) app l
  = let new := filter (fun n => n ∉ app.(explored)) l in
    cs ← paint_list (app.(cell_states))
           (filter (fun n => n ≠ app.(target)) new) FRONTIER;
    Some (set_cell_states cs
            (set_came_from (record_first current (app.(came_from)) new)
               (set_frontier_dl
                  (reverse ((fun n => (n, depth + 1)) <$> new)
                   ++ app.(frontier_dl)) app))).
Proof.
  revert app. induction l as [|x l IH]; intros app.
  - done.
  - simpl for_each.
    set (loop := for_each (push_unexplored current depth)) in *.
    unfold push_unexplored.
    destruct (decide (x ∉ app.(explored))) as [Hv|Hv];
      [rewrite (bool_decide_eq_true_2 _ Hv)
      |rewrite (bool_decide_eq_false_2 _ Hv)].
    + rewrite filter_cons_True by done. cbv zeta.
      unfold record_first at 1. simpl foldl. fold (record_first current).
      rewrite fmap_cons, reverse_cons, <- app_assoc. cbn [List.app].
      simpl.
      destruct (decide (x ∈ dom (app.(came_from)))) as [Hcf|Hcf];
        [rewrite (bool_decide_eq_false_2 (x ∉ dom (app.(came_from))))
           by tauto
        |rewrite (bool_decide_eq_true_2 (x ∉ dom (app.(came_from))))
           by done];
        (destruct (decide (x = app.(target))) as [Ht|Ht];
         [rewrite (bool_decide_eq_false_2 (x ≠ app.(target)))
            by (simpl; tauto);
          rewrite (filter_cons_False (fun n => n ≠ app.(target)))
            by (simpl; tauto); simpl
         |rewrite (bool_decide_eq_true_2 (x ≠ app.(target))) by done;
          rewrite (filter_cons_True (fun n => n ≠ app.(target))) by done;
          simpl paint_list; unfold paint; simpl;
          destruct (set2 (app.(cell_states)) x.1 x.2 FRONTIER) as [cs1|];
          simpl; [|done]]);
        rewrite IH; simpl;
        by destruct (paint_list _ _ FRONTIER).
    + rewrite filter_cons_False by done. simpl. by apply IH.
Qed.

(** * Where duplicates are suppressed *)

(** The first thing a step does with the node it extracts (the visited set
    and the overlay), for a node that is not visited yet. *)
Lemma mark_explored_inv (b : bool) current state app app1 :
  (if b then paint current state app else Some app) = Some app1 ->
  ∃ cs, app1 = set_cell_states cs app.
Proof.
  destruct b; intros H.
  - apply paint_inv in H as (cs & _ & ->). by exists cs.
  - injection H as <-. by exists (app.(cell_states)).
Qed.

(** A depth-bounded expansion pushes every neighbour that is not visited,
    whatever the stack holds. *)
Lemma expand_limited_pushes limit current depth app app' ns :
  current ∉ app.(explored) -> current ≠ app.(target) -> depth < limit ->
  get_neighbors (app.(grid)) current (app.(rows)) (app.(cols)) = Some ns ->
  expand_limited limit current depth app = Some app' ->
  app'.(frontier_dl)
  = ((fun n => (n, depth + 1))
       <$> filter (fun n => n ∉ {[current]} ∪ app.(explored)) ns)
    ++ app.(frontier_dl)
  ∧ app'.(explored) = {[current]} ∪ app.(explored).
Proof.
  intros Hx Ht Hd Hns H. unfold expand_limited in H.
  rewrite bool_decide_eq_false_2 in H by done.
  match type of H with (?m ≫= _) = _ => destruct m as [app1|] eqn:E1 end;
    simpl in H; [|discriminate].
  apply mark_explored_inv in E1 as (cs1 & ->). simpl in H.
  rewrite bool_decide_eq_false_2 in H by done.
  rewrite bool_decide_eq_true_2 in H by done.
  rewrite Hns in H. simpl in H.
  match type of H with (?m ≫= _) = _ => destruct m as [app2|] eqn:E2 end;
    simpl in H; [|discriminate].
  injection H as <-.
  rewrite push_unexplored_loop in E2. simpl in E2.
  destruct (paint_list _ _ FRONTIER) as [cs|]; simpl in E2; [|discriminate].
  injection E2 as <-. simpl. split; [|done].
  by rewrite filter_reverse, fmap_reverse, reverse_involutive.
Qed.

(** A popped node that is visited already is discarded, and nothing else
    happens. *)
Lemma expand_limited_discards limit current depth app :
  current ∈ app.(explored) ->
  expand_limited limit current depth app = Some app.
Proof.
  intros Hx. unfold expand_limited. by rewrite bool_decide_eq_true_2.
Qed.

(** Depth-first search pushes a neighbour only when it is neither visited nor
    on the stack. *)
Lemma dfs_step_pushes app app' current rest ns :
  app.(frontier) = current :: rest ->
  current ∉ app.(explored) -> current ≠ app.(target) ->
  get_neighbors (app.(grid)) current (app.(rows)) (app.(cols)) = Some ns ->
  dfs_step app = Some app' ->
  app'.(frontier)
  = filter (fun n => (n ∉ {[current]} ∪ app.(explored)) ∧ (n ∉ rest)) ns
    ++ rest
  ∧ app'.(explored) = {[current]} ∪ app.(explored).
Proof.
  intros Hfr Hx Ht Hns H. unfold dfs_step in H. rewrite Hfr in H.
  simpl in H. rewrite bool_decide_eq_false_2 in H by done.
  match type of H with (?m ≫= _) = _ => destruct m as [app1|] eqn:E1 end;
    simpl in H; [|discriminate].
  apply mark_explored_inv in E1 as (cs1 & ->). simpl in H.
  rewrite bool_decide_eq_false_2 in H by done.
  rewrite Hns in H. simpl in H.
  match type of H with (?m ≫= _) = _ => destruct m as [app2|] eqn:E2 end;
    simpl in H; [|discriminate].
  injection H as <-.
  rewrite dfs_visit_loop in E2
    by (rewrite reverse_Permutation; by eapply neighbors_NoDup).
  simpl in E2.
  destruct (paint_list _ _ FRONTIER) as [cs|]; simpl in E2; [|discriminate].
  injection E2 as <-. simpl. split; [|done].
  unfold discovered. by rewrite filter_reverse, reverse_involutive.
Qed.

Lemma dfs_step_discards app current rest :
  app.(frontier) = current :: rest -> current ∈ app.(explored) ->
  dfs_step app = Some (set_frontier rest app).
Proof.
  intros Hfr Hx. unfold dfs_step. rewrite Hfr. simpl.
  by rewrite bool_decide_eq_true_2.
Qed.

(** C6, amended: in depth-limited and iterative-deepening search duplicate
    suppression is deferred.  An expansion below the bound pushes every
    neighbour that is not visited, with no look at the stack, so the stack may
    hold a node several times; a popped node that is visited already is
    discarded and nothing else happens.  Depth-first search keeps the same
    test at pop time but checks the stack at push time: it pushes a neighbour
    only when it is neither visited nor on the stack. *)
Theorem duplicate_policy :
  (∀ app app' current depth rest ns,
     app.(frontier_dl) = (current, depth) :: rest ->
     current ∉ app.(explored) -> current ≠ app.(target) ->
     get_neighbors (app.(grid)) current (app.(rows)) (app.(cols)) = Some ns ->
     (depth < app.(depth_limit) -> dls_step app = Some app' ->
      app'.(frontier_dl)
      = ((fun n => (n, depth + 1))
           <$> filter (fun n => n ∉ {[current]} ∪ app.(explored)) ns) ++ rest)
     ∧ (depth < app.(current_depth_limit) -> iddfs_step app = Some app' ->
        app'.(frontier_dl)
        = ((fun n => (n, depth + 1))
             <$> filter (fun n => n ∉ {[current]} ∪ app.(explored)) ns)
          ++ rest))
  ∧ (∀ app current depth rest,
       app.(frontier_dl) = (current, depth) :: rest ->
       current ∈ app.(explored) ->
       dls_step app = Some (set_frontier_dl rest app)
       ∧ iddfs_step app = Some (set_frontier_dl rest app))
  ∧ (∀ app app' current rest ns,
       app.(frontier) = current :: rest ->
       current ∉ app.(explored) -> current ≠ app.(target) ->
       get_neighbors (app.(grid)) current (app.(rows)) (app.(cols)) = Some ns ->
       dfs_step app = Some app' ->
       app'.(frontier)
       = filter (fun n => (n ∉ {[current]} ∪ app.(explored)) ∧ (n ∉ rest)) ns
         ++ rest)
  ∧ (∀ app current rest,
       app.(frontier) = current :: rest -> current ∈ app.(explored) ->
       dfs_step app = Some (set_frontier rest app)).
Proof.
  split; [|split; [|split]].
  - intros app app' current depth rest ns Hfr Hx Ht Hns. split.
    + intros Hd H. unfold dls_step in H. rewrite Hfr in H.
      by apply (expand_limited_pushes _ _ _ _ _ ns) in H as [-> _].
    + intros Hd H. unfold iddfs_step in H. rewrite Hfr in H.
      by apply (expand_limited_pushes _ _ _ _ _ ns) in H as [-> _].
  - intros app current depth rest Hfr Hx. split.
    + unfold dls_step. rewrite Hfr. by apply expand_limited_discards.
    + unfold iddfs_step. rewrite Hfr. by apply expand_limited_discards.
  - intros app app' current rest ns Hfr Hx Ht Hns H.
    by apply (dfs_step_pushes app app' current rest ns) in H as [-> _].
  - intros app current rest. apply dfs_step_discards.
Qed.

(** The depth-first search on the open block after its first step, and the
    depth-limited search after its first step. *)
Definition dfs_block_step1 : App :=
  default (new_app 2 2 block22 (0, 0) (1, 1) DFS 20)
    (search 1 (new_app 2 2 block22 (0, 0) (1, 1) DFS 20)).

Definition dls_block_step1 : App :=
  default (new_app 2 2 block22 (0, 0) (1, 1) DLS 20)
    (search 1 (new_app 2 2 block22 (0, 0) (1, 1) DLS 20)).

Lemma duplicate_policy_witness :
  (∃ app', dfs_step dfs_block_step1 = Some app'
           ∧ app'.(frontier) = [(1, 0); (1, 1)])
  ∧ (∃ app', dls_step dls_block_step1 = Some app'
             ∧ app'.(frontier_dl) = [((1, 1), 2); ((1, 0), 1); ((1, 1), 1)]).
Proof.
  destruct duplicate_policy as (Hdl & _ & Hdfs & _).
  split.
  - destruct (dfs_step dfs_block_step1) as [app'|] eqn:E;
      [|by vm_compute in E].
    exists app'. split; [done|].
    rewrite (Hdfs dfs_block_step1 app' (0, 1) [(1, 0); (1, 1)]
               [(1, 1); (0, 0)]).
    + by vm_compute.
    + by vm_compute.
    + apply (bool_decide_unpack _). by vm_compute.
    + by vm_compute.
    + by vm_compute.
    + exact E.
  - destruct (dls_step dls_block_step1) as [app'|] eqn:E;
      [|by vm_compute in E].
    exists app'. split; [done|].
    destruct (Hdl dls_block_step1 app' (0, 1) 1 [((1, 0), 1); ((1, 1), 1)]
                [(1, 1); (0, 0)]) as [Hpush _].
    + by vm_compute.
    + apply (bool_decide_unpack _). by vm_compute.
    + by vm_compute.
    + by vm_compute.
    + rewrite Hpush; [by vm_compute|by vm_compute|exact E].
Defined.

(** * What a step keeps *)

Lemma for_each_inv {A S : Type} (P : S -> Prop) (body : S -> A -> option S)
    (l : list A) (s s' : S) :
  (∀ s x s', x ∈ l -> P s -> body s x = Some s' -> P s') ->
  P s -> for_each body s l = Some s' -> P s'.
Proof.
  revert s. induction l as [|x l IH]; intros s Hbody Hs H; simpl in H.
  - by injection H as <-.
  - destruct (body s x) as [s1|] eqn:E; simpl in H; [|discriminate].
    apply (IH s1); [|by apply (Hbody s x); [left|..]|done].
    intros s2 y s3 Hy. apply Hbody. by right.
Qed.

Lemma for_each_total {A S : Type} (P : S -> Prop) (body : S -> A -> option S)
    (l : list A) (s : S) :
  (∀ s x, x ∈ l -> P s -> ∃ s', body s x = Some s' ∧ P s') ->
  P s -> ∃ s', for_each body s l = Some s' ∧ P s'.
Proof.
  revert s. induction l as [|x l IH]; intros s Hbody Hs; simpl.
  - eauto.
  - destruct (Hbody s x) as (s1 & -> & H1); [by left|done|]. simpl.
    apply IH; [|done]. intros s2 y Hy. apply Hbody. by right.
Qed.

(** Two overlays in which the same cells can be read. *)
Definition same_shape (cs cs' : list (list CellState)) : Prop :=
  ∀ r c, is_Some (get2 cs' r c) ↔ is_Some (get2 cs r c).

Lemma same_shape_refl cs : same_shape cs cs.
Proof. by intros r c. Qed.

Lemma same_shape_trans cs1 cs2 cs3 :
  same_shape cs1 cs2 -> same_shape cs2 cs3 -> same_shape cs1 cs3.
Proof. intros H1 H2 r c. by rewrite (H2 r c), (H1 r c). Qed.

Lemma same_shape_set2 cs cs' r c state :
  set2 cs r c state = Some cs' -> same_shape cs cs'.
Proof. intros H r' c'. by eapply set2_get2_is_Some. Qed.

Lemma py_index_is_Some len i : is_Some (py_index len i) ↔ - len <= i < len.
Proof.
  unfold py_index. repeat case_bool_decide; split; intros Hi;
    try (by eauto); try lia; by destruct Hi.
Qed.

Lemma get2_is_Some_dims {A : Type} (m : list (list A)) rows cols r c :
  matrix_dims m rows cols ->
  is_Some (get2 m r c) ↔ (- rows <= r < rows) ∧ (- cols <= c < cols).
Proof.
  intros [Hlen Hall]. unfold get2, py_get.
  destruct (py_index (Z.of_nat (length m)) r) as [k|] eqn:Ek; simpl.
  - assert (- rows <= r < rows) as Hr
      by (rewrite <- Hlen; apply py_index_is_Some; by rewrite Ek).
    destruct (m !! k) as [row|] eqn:Erow; simpl.
    + assert (Z.of_nat (length row) = cols) as Hrow.
      { rewrite Forall_forall in Hall. apply Hall.
        apply list_elem_of_lookup. eauto. }
      destruct (py_index (Z.of_nat (length row)) c) as [kc|] eqn:Ekc; simpl.
      * assert (- cols <= c < cols)
          by (rewrite <- Hrow; apply py_index_is_Some; by rewrite Ekc).
        rewrite lookup_lt_is_Some. apply py_index_lt in Ekc.
        split; [done|lia].
      * split; [by intros []|]. intros [_ Hc]. rewrite <- Hrow in Hc.
        apply py_index_is_Some in Hc. rewrite Ekc in Hc. by destruct Hc.
    + apply py_index_lt in Ek. apply lookup_ge_None in Erow. lia.
  - split; [by intros []|]. intros [Hr _]. rewrite <- Hlen in Hr.
    apply py_index_is_Some in Hr. rewrite Ek in Hr. by destruct Hr.
Qed.

Lemma same_shape_dims cs cs' rows cols :
  matrix_dims cs rows cols -> matrix_dims cs' rows cols -> same_shape cs cs'.
Proof.
  intros H H' r c.
  by rewrite (get2_is_Some_dims _ _ _ _ _ H), (get2_is_Some_dims _ _ _ _ _ H').
Qed.

(** A fresh overlay has the dimensions of the one it replaces. *)
Lemma create_cell_states_dims (cs : list (list CellState)) rows cols :
  matrix_dims cs rows cols ->
  matrix_dims (create_cell_states rows cols) rows cols.
Proof.
  intros [Hlen Hall]. unfold create_cell_states. split.
  - rewrite length_replicate. lia.
  - destruct cs as [|row cs]; simpl in Hlen.
    + subst rows. simpl. apply Forall_nil_2.
    + apply Forall_cons in Hall as [Hrow _].
      apply Forall_replicate. rewrite length_replicate. lia.
Qed.

(** The fields a loop over the neighbours may write, taken from [src], on top
    of the other fields of [base]. *)
Definition with_search_fields (src base : App) : App :=
  set_cell_states (src.(cell_states))
    (set_frontier (src.(frontier))
       (set_frontier_pq (src.(frontier_pq))
          (set_frontier_dl (src.(frontier_dl))
             (set_came_from (src.(came_from))
                (set_cost_so_far (src.(cost_so_far))
                   (set_frontier_forward (src.(frontier_forward))
                      (set_frontier_backward (src.(frontier_backward))
                         (set_came_from_forward (src.(came_from_forward))
                            (set_came_from_backward
                               (src.(came_from_backward)) base))))))))).

(** [app'] is [app] up to its frontiers, predecessor maps, cost map and the
    states of the overlay cells: what the loops of the step functions and the
    marking of a path may change. *)
Definition visit_rel (app app' : App) : Prop :=
  app' = with_search_fields app' app
  ∧ same_shape (app.(cell_states)) (app'.(cell_states)).

Lemma visit_rel_refl app : visit_rel app app.
Proof. split; [reflexivity|apply same_shape_refl]. Qed.

Lemma visit_rel_trans a b c : visit_rel a b -> visit_rel b c -> visit_rel a c.
Proof.
  intros [Hab Sab] [Hbc Sbc]. split; [|by eapply same_shape_trans].
  rewrite Hbc at 1. rewrite Hab. reflexivity.
Qed.

Lemma visit_rel_paint nd state app app' :
  paint nd state app = Some app' -> visit_rel app app'.
Proof.
  intros H. apply paint_inv in H as (cs & Hset & ->).
  split; [reflexivity|]. simpl. by eapply same_shape_set2.
Qed.

Lemma visit_rel_for_each {A : Type} (body : App -> A -> option App) l app app' :
  (∀ a x a', body a x = Some a' -> visit_rel a a') ->
  for_each body app l = Some app' -> visit_rel app app'.
Proof.
  intros Hbody H.
  apply (for_each_inv (visit_rel app) body l app app'); [|apply visit_rel_refl|done].
  intros a x a' _ Ha Hx. eapply visit_rel_trans; [done|by eapply Hbody].
Qed.

(** What one turn of a loop over the neighbours does: it keeps the state up
    to the search fields, and it writes the overlay, if at all, at the
    neighbour, which is then not in the visited set [visited]. *)
Definition visit_turn (visited : gset node) (app : App) (x : node)
    (app' : App) : Prop :=
  visit_rel app app'
  ∧ (app'.(cell_states) = app.(cell_states)
     ∨ ((x ∉ visited)
        ∧ ∃ state, set2 (app.(cell_states)) x.1 x.2 state
                   = Some (app'.(cell_states)))).

Ltac visit_turn_tac H :=
  repeat case_bool_decide; simplify_eq/=;
  try (apply paint_inv in H as (? & ? & ->));
  (split; [split; [reflexivity|simpl; first [apply same_shape_refl
                                           |by eapply same_shape_set2]]
         |simpl; first [by left | right; split; [tauto|eauto]]]).

Lemma bfs_visit_turn current app x app' :
  bfs_visit current app x = Some app' ->
  visit_turn (app.(explored)) app x app'.
Proof. unfold bfs_visit. intros H. visit_turn_tac H. Qed.

Lemma forward_visit_turn current app x app' :
  forward_visit current app x = Some app' ->
  visit_turn (app.(explored_forward)) app x app'.
Proof. unfold forward_visit. intros H. visit_turn_tac H. Qed.

Lemma backward_visit_turn current app x app' :
  backward_visit current app x = Some app' ->
  visit_turn (app.(explored_backward)) app x app'.
Proof. unfold backward_visit. intros H. visit_turn_tac H. Qed.

Lemma dfs_visit_turn current app x app' :
  dfs_visit current app x = Some app' ->
  visit_turn (app.(explored)) app x app'.
Proof. unfold dfs_visit. intros H. visit_turn_tac H. Qed.

Lemma push_unexplored_turn current depth app x app' :
  push_unexplored current depth app x = Some app' ->
  visit_turn (app.(explored)) app x app'.
Proof. unfold push_unexplored. intros H. visit_turn_tac H. Qed.

Lemma ucs_relax_turn current app x app' :
  ucs_relax current app x = Some app' ->
  visit_turn (app.(explored)) app x app'.
Proof.
  unfold ucs_relax. intros H.
  case_bool_decide as Hx; [|visit_turn_tac H].
  destruct (app.(cost_so_far) !! current) as [base|]; simpl in H;
    [|discriminate].
  destruct (app.(cost_so_far) !! x) as [old|];
    [destruct (PrimFloat.ltb _ old)|]; visit_turn_tac H.
Qed.

Lemma visit_rel_fields app app' :
  visit_rel app app' ->
  app'.(rows) = app.(rows) ∧ app'.(cols) = app.(cols)
  ∧ app'.(grid) = app.(grid) ∧ app'.(start) = app.(start)
  ∧ app'.(target) = app.(target)
  ∧ app'.(selected_algorithm) = app.(selected_algorithm)
  ∧ app'.(explored) = app.(explored)
  ∧ app'.(explored_forward) = app.(explored_forward)
  ∧ app'.(explored_backward) = app.(explored_backward)
  ∧ app'.(step_count) = app.(step_count)
  ∧ app'.(searching) = app.(searching)
  ∧ app'.(search_complete) = app.(search_complete)
  ∧ app'.(depth_limit) = app.(depth_limit)
  ∧ app'.(current_depth_limit) = app.(current_depth_limit)
  ∧ app'.(status_message) = app.(status_message)
  ∧ app'.(final_path) = app.(final_path)
  ∧ app'.(meeting_point) = app.(meeting_point).
Proof. intros [H _]. rewrite H. repeat split; reflexivity. Qed.

(** A loop whose turns write the overlay only at nodes outside the visited
    set leaves a visited cell of the overlay as it was. *)
Lemma visit_loop (visited : App -> gset node)
    (body : App -> node -> option App) l app app' b :
  (∀ a a', visit_rel a a' -> visited a' = visited a) ->
  (∀ a x a', body a x = Some a' -> visit_turn (visited a) a x a') ->
  for_each body app l = Some app' ->
  visit_rel app app'
  ∧ (matrix_dims (app.(cell_states)) (app.(rows)) (app.(cols)) ->
     matrix_dims (app'.(cell_states)) (app.(rows)) (app.(cols)))
  ∧ (matrix_dims (app.(cell_states)) (app.(rows)) (app.(cols)) ->
     Forall (in_bounds (app.(rows)) (app.(cols))) l ->
     in_bounds (app.(rows)) (app.(cols)) b -> b ∈ visited app ->
     get2 (app'.(cell_states)) b.1 b.2 = get2 (app.(cell_states)) b.1 b.2).
Proof.
  intros Hvis Hbody H.
  assert (Hrel : visit_rel app app').
  { eapply visit_rel_for_each; [|done]. intros a x a' Hx.
    by apply Hbody in Hx as [? _]. }
  split; [done|]. split.
  - intros Hdims.
    apply (for_each_inv
             (fun a => matrix_dims (a.(cell_states)) (app.(rows)) (app.(cols)))
             body l app app'); [|done|done].
    intros a x a' _ Ha Hx. apply Hbody in Hx as [_ [->|(_ & st & Hset)]];
      [done|by eapply set2_dims].
  - intros Hdims Hl Hb Hbv.
    apply (for_each_inv
             (fun a => visit_rel app a
                       ∧ matrix_dims (a.(cell_states)) (app.(rows)) (app.(cols))
                       ∧ get2 (a.(cell_states)) b.1 b.2
                         = get2 (app.(cell_states)) b.1 b.2)
             body l app app'); [|by split; [apply visit_rel_refl|]|done].
    intros a x a' Hxl (Ha & Hda & Hga) Hx.
    apply Hbody in Hx as [Hrel' Hw].
    split; [by eapply visit_rel_trans|].
    destruct Hw as [->|(Hxv & st & Hset)]; [done|].
    split; [by eapply set2_dims|].
    rewrite <- Hga.
    apply (set2_get2_ne _ _ (app.(rows)) (app.(cols)) x b st);
      [done| |done| |done].
    + rewrite Forall_forall in Hl. by apply Hl.
    + intros ->. apply Hxv. by rewrite (Hvis _ _ Ha).
Qed.

(** * The effect of one step *)

(** What a step keeps of the state whatever branch it takes: the grid, its
    dimensions, Start, Target, the configuration, and the shape of the
    overlay. *)
Definition pres_rel (app app' : App) : Prop :=
  app'.(rows) = app.(rows) ∧ app'.(cols) = app.(cols)
  ∧ app'.(grid) = app.(grid) ∧ app'.(start) = app.(start)
  ∧ app'.(target) = app.(target)
  ∧ app'.(selected_algorithm) = app.(selected_algorithm)
  ∧ app'.(depth_limit) = app.(depth_limit)
  ∧ same_shape (app.(cell_states)) (app'.(cell_states)).

Lemma pres_rel_refl app : pres_rel app app.
Proof. unfold pres_rel. split_and!; try reflexivity. apply same_shape_refl. Qed.

Lemma pres_rel_trans a b c : pres_rel a b -> pres_rel b c -> pres_rel a c.
Proof.
  intros (?&?&?&?&?&?&?&?) (?&?&?&?&?&?&?&?).
  unfold pres_rel. split_and!; try congruence. by eapply same_shape_trans.
Qed.

Lemma visit_rel_pres app app' : visit_rel app app' -> pres_rel app app'.
Proof.
  intros H. pose proof (visit_rel_fields _ _ H) as
    (?&?&?&?&?&?&?&?&?&?&?&?&?&?&?&?&?).
  destruct H as [_ Hs]. unfold pres_rel. split_and!; done.
Qed.

Lemma mark_path_rel app app' : mark_path app = Some app' -> visit_rel app app'.
Proof.
  unfold mark_path. apply visit_rel_for_each.
  intros a x a' H. case_bool_decide.
  - by eapply visit_rel_paint.
  - injection H as <-. apply visit_rel_refl.
Qed.

Lemma reconstruct_path_inv app app' :
  reconstruct_path app = Some app' ->
  ∃ visited,
    walk (app.(came_from)) (Some (app.(target))) = Some visited
    ∧ visit_rel (set_final_path (reverse (visited ++ [app.(start)])) app) app'.
Proof.
  unfold reconstruct_path. intros H.
  destruct (walk _ _) as [visited|]; simpl in H; [|discriminate].
  exists visited. split; [done|]. by apply mark_path_rel.
Qed.

Lemma reconstruct_bidirectional_path_inv app app' :
  reconstruct_bidirectional_path app = Some app' ->
  ∃ p, visit_rel (set_final_path p app) app'.
Proof.
  unfold reconstruct_bidirectional_path. intros H.
  destruct (walk _ _) as [fwd|]; simpl in H; [|discriminate].
  match type of H with (?m ≫= _) = _ => destruct m as [bwd|] end;
    simpl in H; [|discriminate].
  eexists. by apply mark_path_rel.
Qed.

Lemma pres_rel_finish found app : pres_rel app (finish_search found app).
Proof.
  unfold finish_search, pres_rel.
  destruct found; split_and!; try reflexivity; apply same_shape_refl.
Qed.

(** The visited set a step works on: the one of a unidirectional search, or
    one of the two of bidirectional search. *)
Inductive Side : Type := Single | Forward | Backward.

(** The branch of its step function a state selects. *)
Inductive StepKind : Type :=
| Exhausted                 (* no frontier left: failure is reported *)
| Restarted                 (* IDDFS starts over with the next bound *)
| Discarded (n : node)      (* the node extracted is visited already *)
| Found (n : node)          (* the node extracted ends the search *)
| Expanded (side : Side) (n : node)
| Idle.                     (* bidirectional: the tick that pops no node;
                               nothing is stated about it *)

Definition classify_pop (checks_visited : bool) (app : App) (current : node)
  : StepKind :=
  if checks_visited && bool_decide (current ∈ app.(explored))
  then Discarded current
  else if bool_decide (current = app.(target)) then Found current
  else Expanded Single current.

Definition classify (app : App) : StepKind :=
  match app.(selected_algorithm) with
  | BFS =>
      match app.(frontier) with
      | [] => Exhausted
      | current :: _ => classify_pop false app current
      end
  | DFS =>
      match app.(frontier) with
      | [] => Exhausted
      | current :: _ => classify_pop true app current
      end
  | UCS =>
      match app.(frontier_pq) with
      | [] => Exhausted
      | x :: l => classify_pop true app (pop_min x l).1.2
      end
  | DLS =>
      match app.(frontier_dl) with
      | [] => Exhausted
      | (current, _) :: _ => classify_pop true app current
      end
  | IDDFS =>
      match app.(frontier_dl) with
      | [] =>
          if bool_decide (app.(current_depth_limit) + 1 > 50) then Exhausted
          else Restarted
      | (current, _) :: _ => classify_pop true app current
      end
  | Bidirectional =>
      match app.(frontier_forward), app.(frontier_backward) with
      | [], [] => Exhausted
      | _, _ =>
          match (if bool_decide (app.(step_count) `mod` 2 = 0)
                 then app.(frontier_forward) else []) with
          | current :: _ =>
              if bool_decide (current ∈ app.(explored_backward))
              then Found current else Expanded Forward current
          | [] =>
              match app.(frontier_backward) with
              | current :: _ =>
                  if bool_decide (current ∈ app.(explored_forward))
                  then Found current else Expanded Backward current
              | [] => Idle
              end
          end
      end
  end.

Definition visited_by (side : Side) (app : App) : gset node :=
  match side with
  | Single => app.(explored)
  | Forward => app.(explored_forward)
  | Backward => app.(explored_backward)
  end.

(** The state an expanded node is painted in, and the nodes a side leaves
    unpainted. *)
Definition explored_mark (side : Side) : CellState :=
  match side with Backward => EXPLORED2 | _ => EXPLORED end.

Definition unpainted (side : Side) (app : App) (n : node) : Prop :=
  match side with
  | Single => n = app.(start) ∨ n = app.(target)
  | Forward => n = app.(start)
  | Backward => n = app.(target)
  end.

(** What a step that takes the branch [kind] does to the visited set, the
    counter and the overlay cell of the node it extracts. *)
Definition effect_of (kind : StepKind) (app app' : App) : Prop :=
  match kind with
  | Expanded side current =>
      visited_by side app' = {[current]} ∪ visited_by side app
      ∧ app'.(step_count) = app.(step_count) + 1
      ∧ app'.(searching) = app.(searching)
      ∧ (in_bounds (app.(rows)) (app.(cols)) current ->
         ¬ unpainted side app current ->
         get2 (app'.(cell_states)) current.1 current.2
         = Some (explored_mark side))
  | Discarded current =>
      app'.(explored) = app.(explored)
      ∧ app'.(step_count) = app.(step_count)
      ∧ app'.(searching) = app.(searching)
      ∧ app'.(cell_states) = app.(cell_states)
  | Found current =>
      app'.(step_count) = app.(step_count)
      ∧ app'.(searching) = false ∧ app'.(search_complete) = true
  | Exhausted =>
      app'.(step_count) = app.(step_count)
      ∧ app'.(searching) = false ∧ app'.(search_complete) = true
      ∧ app'.(explored) = app.(explored)
      ∧ app'.(cell_states) = app.(cell_states)
  | Restarted =>
      app'.(step_count) = app.(step_count)
      ∧ app'.(searching) = app.(searching)
      ∧ app'.(explored) = ∅
      ∧ app'.(current_depth_limit) = app.(current_depth_limit) + 1
  | Idle => True
  end.

Definition step_effect (app app' : App) : Prop :=
  effect_of (classify app) app app'.

(** The part of a unidirectional step that follows the extraction of a node
    that is not visited: mark it, then end the search or expand. *)
Lemma expand_effect (body : App -> node -> option App)
    (f : list node -> list node) (run_loop : bool) app current app' :
  (∀ a x a', body a x = Some a' -> visit_turn (a.(explored)) a x a') ->
  (∀ l x, x ∈ f l -> x ∈ l) ->
  matrix_dims (app.(cell_states)) (app.(rows)) (app.(cols)) ->
  current ∈ app.(explored) ->
  (app1 ← (if bool_decide (current ≠ app.(start) ∧ current ≠ app.(target))
           then paint current EXPLORED app else Some app);
   if bool_decide (current = app1.(target)) then
     app2 ← reconstruct_path app1; Some (finish_search true app2)
   else
     if run_loop then
       neighbors ← get_neighbors (app1.(grid)) current
                     (app1.(rows)) (app1.(cols));
       app2 ← for_each body app1 (f neighbors);
       Some (set_step_count (app2.(step_count) + 1) app2)
     else Some (set_step_count (app1.(step_count) + 1) app1)) = Some app' ->
  pres_rel app app'
  ∧ app'.(explored) = app.(explored)
  ∧ if bool_decide (current = app.(target))
    then app'.(step_count) = app.(step_count)
         ∧ app'.(searching) = false ∧ app'.(search_complete) = true
    else app'.(step_count) = app.(step_count) + 1
         ∧ app'.(searching) = app.(searching)
         ∧ (in_bounds (app.(rows)) (app.(cols)) current ->
            current ≠ app.(start) ->
            get2 (app'.(cell_states)) current.1 current.2 = Some EXPLORED).
Proof.
  intros Hbody Hf Hdims Hcur H.
  match type of H with (?m ≫= _) = _ => destruct m as [app1|] eqn:E1 end;
    simpl in H; [|discriminate].
  assert (visit_rel app app1 ∧
          matrix_dims (app1.(cell_states)) (app.(rows)) (app.(cols)) ∧
          (current ≠ app.(start) -> current ≠ app.(target) ->
           get2 (app1.(cell_states)) current.1 current.2 = Some EXPLORED))
    as (Hrel1 & Hdims1 & Hmark).
  { destruct (decide (current ≠ app.(start) ∧ current ≠ app.(target)))
      as [Hc|Hc];
      [rewrite (bool_decide_eq_true_2 _ Hc) in E1
      |rewrite (bool_decide_eq_false_2 _ Hc) in E1].
    - pose proof (visit_rel_paint _ _ _ _ E1) as Hr.
      apply paint_inv in E1 as (cs & Hset & ->). simpl.
      split; [done|]. split; [by eapply set2_dims|].
      intros _ _. by eapply set2_get2_eq.
    - injection E1 as <-. split; [apply visit_rel_refl|]. split; [done|].
      intros ? ?. exfalso. by apply Hc. }
  pose proof (visit_rel_fields _ _ Hrel1) as
    (Hrows&Hcols&Hgrid&Hstart&Htarget&_&Hexp&_&_&Hcount&Hsearch&_).
  rewrite Htarget in H.
  case_bool_decide as Ht.
  - destruct (reconstruct_path app1) as [app2|] eqn:E2; simpl in H;
      [|discriminate].
    injection H as <-.
    apply reconstruct_path_inv in E2 as (visited & _ & Hrel2).
    pose proof (visit_rel_fields _ _ Hrel2) as
      (_&_&_&_&_&_&Hexp2&_&_&Hcount2&_).
    simpl in Hexp2, Hcount2.
    split; [|split].
    + eapply pres_rel_trans; [by apply visit_rel_pres|].
      eapply pres_rel_trans; [|apply pres_rel_finish].
      eapply pres_rel_trans; [|by apply visit_rel_pres].
      unfold pres_rel. split_and!; try reflexivity. apply same_shape_refl.
    + unfold finish_search. destruct (decide _); simpl; congruence.
    + unfold finish_search. destruct (decide _); simpl;
        split_and!; congruence.
  - assert (∃ app2, app' = set_step_count (app2.(step_count) + 1) app2 ∧
            visit_rel app1 app2 ∧
            (in_bounds (app.(rows)) (app.(cols)) current ->
             get2 (app2.(cell_states)) current.1 current.2
             = get2 (app1.(cell_states)) current.1 current.2))
      as (app2 & -> & Hrel2 & Hkeep).
    { destruct run_loop.
      - destruct (get_neighbors _ _ _ _) as [ns|] eqn:Ens; simpl in H;
          [|discriminate].
        destruct (for_each body app1 (f ns)) as [app2|] eqn:E2; simpl in H;
          [|discriminate].
        injection H as <-. exists app2. split; [done|].
        destruct (visit_loop (fun a => a.(explored)) body (f ns) app1 app2
                    current)
          as (Hr & _ & Hk); [|done|done|].
        { intros a a' Ha.
          pose proof (visit_rel_fields _ _ Ha) as (_&_&_&_&_&_&He&_).
          exact He. }
        split; [done|]. intros Hb. rewrite Hrows, Hcols in Hk.
        apply Hk; [done| |done|simpl; by rewrite Hexp].
        apply Forall_forall. intros x Hx. apply Hf in Hx.
        rewrite Hgrid, Hrows, Hcols in Ens.
        by apply (elem_of_neighbors _ _ _ _ _ _ Ens) in Hx as [_ [? _]].
      - injection H as <-. exists app1.
        split; [done|]. split; [apply visit_rel_refl|done]. }
    simpl.
    pose proof (visit_rel_fields _ _ Hrel2) as
      (_&_&_&_&_&_&Hexp2&_&_&Hcount2&Hsearch2&_).
    split; [|split; [congruence|]].
    + eapply pres_rel_trans; [by apply visit_rel_pres|].
      eapply pres_rel_trans; [by apply visit_rel_pres|].
      unfold pres_rel. split_and!; try reflexivity. apply same_shape_refl.
    + split; [congruence|]. split; [congruence|].
      intros Hb Hs. rewrite Hkeep by done. by apply Hmark.
Qed.

(** A unidirectional step from the extraction on: the test of the visited
    set, where the algorithm makes it, then [expand_effect]. *)
Lemma pop_effect (body : App -> node -> option App)
    (f : list node -> list node) (run_loop chk : bool) app current app' :
  (∀ a x a', body a x = Some a' -> visit_turn (a.(explored)) a x a') ->
  (∀ l x, x ∈ f l -> x ∈ l) ->
  matrix_dims (app.(cell_states)) (app.(rows)) (app.(cols)) ->
  (if chk && bool_decide (current ∈ app.(explored)) then Some app
   else
     let app := set_explored ({[current]} ∪ app.(explored)) app in
     app1 ← (if bool_decide (current ≠ app.(start) ∧ current ≠ app.(target))
             then paint current EXPLORED app else Some app);
     if bool_decide (current = app1.(target)) then
       app2 ← reconstruct_path app1; Some (finish_search true app2)
     else
       if run_loop then
         neighbors ← get_neighbors (app1.(grid)) current
                       (app1.(rows)) (app1.(cols));
         app2 ← for_each body app1 (f neighbors);
         Some (set_step_count (app2.(step_count) + 1) app2)
       else Some (set_step_count (app1.(step_count) + 1) app1)) = Some app' ->
  pres_rel app app' ∧ effect_of (classify_pop chk app current) app app'.
Proof.
  intros Hbody Hf Hdims H. unfold classify_pop.
  destruct (chk && bool_decide (current ∈ app.(explored))) eqn:Echk.
  - injection H as <-. split; [apply pres_rel_refl|]. by simpl.
  - cbv zeta in H.
    apply (expand_effect body f run_loop) in H as (Hpres & Hexp & Heff);
      [|done|done|done|simpl; set_solver].
    simpl in Hexp, Heff. split.
    + eapply pres_rel_trans; [|exact Hpres].
      unfold pres_rel. split_and!; try reflexivity. apply same_shape_refl.
    + case_bool_decide as Ht; simpl.
      * done.
      * destruct Heff as (Hc & Hs & Hp). split_and!; try done.
        intros Hb Hu. apply Hp; [done|]. intros ->. apply Hu. by left.
Qed.

Lemma finish_false_effect app :
  pres_rel app (finish_search false app)
  ∧ effect_of Exhausted app (finish_search false app).
Proof.
  split; [apply pres_rel_finish|]. unfold finish_search. by simpl.
Qed.

Lemma bfs_step_effect app app' :
  matrix_dims (app.(cell_states)) (app.(rows)) (app.(cols)) ->
  app.(selected_algorithm) = BFS ->
  bfs_step app = Some app' ->
  pres_rel app app' ∧ step_effect app app'.
Proof.
  intros Hdims Halgo H. unfold step_effect, classify. rewrite Halgo.
  unfold bfs_step in H.
  destruct (app.(frontier)) as [|current rest] eqn:Efr.
  - injection H as <-. apply finish_false_effect.
  - apply (pop_effect (bfs_visit current) (fun l => l) true false
             (set_frontier rest app) current app');
      [apply bfs_visit_turn|done|done|exact H].
Qed.

Lemma dfs_step_effect app app' :
  matrix_dims (app.(cell_states)) (app.(rows)) (app.(cols)) ->
  app.(selected_algorithm) = DFS ->
  dfs_step app = Some app' ->
  pres_rel app app' ∧ step_effect app app'.
Proof.
  intros Hdims Halgo H. unfold step_effect, classify. rewrite Halgo.
  unfold dfs_step in H.
  destruct (app.(frontier)) as [|current rest] eqn:Efr.
  - injection H as <-. apply finish_false_effect.
  - apply (pop_effect (dfs_visit current) reverse true true
             (set_frontier rest app) current app');
      [apply dfs_visit_turn|intros l x Hx; by apply elem_of_reverse|done|exact H].
Qed.

Lemma ucs_step_effect app app' :
  matrix_dims (app.(cell_states)) (app.(rows)) (app.(cols)) ->
  app.(selected_algorithm) = UCS ->
  ucs_step app = Some app' ->
  pres_rel app app' ∧ step_effect app app'.
Proof.
  intros Hdims Halgo H. unfold step_effect, classify. rewrite Halgo.
  unfold ucs_step in H.
  destruct (app.(frontier_pq)) as [|x l] eqn:Efr.
  - injection H as <-. apply finish_false_effect.
  - destruct (pop_min x l) as [[cost current] rest] eqn:Epop. simpl.
    apply (pop_effect (ucs_relax current) (fun l => l) true true
             (set_frontier_pq rest app) current app');
      [apply ucs_relax_turn|done|done|exact H].
Qed.

Lemma expand_limited_effect limit current depth app app' :
  matrix_dims (app.(cell_states)) (app.(rows)) (app.(cols)) ->
  expand_limited limit current depth app = Some app' ->
  pres_rel app app' ∧ effect_of (classify_pop true app current) app app'.
Proof.
  intros Hdims H.
  apply (pop_effect (push_unexplored current depth) reverse
           (bool_decide (depth < limit)) true app current app');
    [apply push_unexplored_turn|intros l x Hx; by apply elem_of_reverse|done|].
  rewrite <- H. unfold expand_limited. simpl.
  destruct (bool_decide (current ∈ app.(explored))); [done|].
  match goal with |- (?m ≫= _) = _ => destruct m as [app1|] end;
    simpl; [|done].
  destruct (bool_decide (current = app1.(target))); [done|].
  destruct (bool_decide (depth < limit)); [|done].
  by destruct (get_neighbors _ _ _ _).
Qed.

Lemma dls_step_effect app app' :
  matrix_dims (app.(cell_states)) (app.(rows)) (app.(cols)) ->
  app.(selected_algorithm) = DLS ->
  dls_step app = Some app' ->
  pres_rel app app' ∧ step_effect app app'.
Proof.
  intros Hdims Halgo H. unfold step_effect, classify. rewrite Halgo.
  unfold dls_step in H.
  destruct (app.(frontier_dl)) as [|[current depth] rest] eqn:Efr.
  - injection H as <-. apply finish_false_effect.
  - by apply (expand_limited_effect _ _ _ (set_frontier_dl rest app)) in H.
Qed.

Lemma iddfs_step_effect app app' :
  matrix_dims (app.(cell_states)) (app.(rows)) (app.(cols)) ->
  app.(selected_algorithm) = IDDFS ->
  iddfs_step app = Some app' ->
  pres_rel app app' ∧ step_effect app app'.
Proof.
  intros Hdims Halgo H. unfold step_effect, classify. rewrite Halgo.
  unfold iddfs_step in H.
  destruct (app.(frontier_dl)) as [|[current depth] rest] eqn:Efr.
  - simpl in H. case_bool_decide as Hlim.
    + injection H as <-.
      destruct (finish_false_effect
                  (set_current_depth_limit (app.(current_depth_limit) + 1)
                     app)) as [Hp He].
      split; [|exact He].
      eapply pres_rel_trans; [|exact Hp].
      unfold pres_rel. split_and!; try reflexivity. apply same_shape_refl.
    + apply paint_inv in H as (cs & Hset & ->). simpl in *.
      split; [|done].
      unfold pres_rel. simpl. split_and!; try reflexivity.
      eapply same_shape_trans; [|by eapply same_shape_set2].
      eapply same_shape_dims; [done|].
      by eapply create_cell_states_dims.
  - by apply (expand_limited_effect _ _ _ (set_frontier_dl rest app)) in H.
Qed.

Lemma forward_side_effect current rest app app' :
  matrix_dims (app.(cell_states)) (app.(rows)) (app.(cols)) ->
  forward_side current rest app = Some app' ->
  pres_rel app app'
  ∧ effect_of (if bool_decide (current ∈ app.(explored_backward))
               then Found current else Expanded Forward current) app app'.
Proof.
  intros Hdims H. unfold forward_side in H.
  match type of H with (?m ≫= _) = _ => destruct m as [app1|] eqn:E1 end;
    simpl in H; [|discriminate].
  assert (visit_rel
            (set_explored_forward ({[current]} ∪ app.(explored_forward))
               (set_frontier_forward rest app)) app1 ∧
          matrix_dims (app1.(cell_states)) (app.(rows)) (app.(cols)) ∧
          (current ≠ app.(start) ->
           get2 (app1.(cell_states)) current.1 current.2 = Some EXPLORED))
    as (Hrel1 & Hdims1 & Hmark).
  { destruct (decide (current ≠ app.(start))) as [Hc|Hc];
      [rewrite (bool_decide_eq_true_2 _ Hc) in E1
      |rewrite (bool_decide_eq_false_2 _ Hc) in E1].
    - pose proof (visit_rel_paint _ _ _ _ E1) as Hr.
      apply paint_inv in E1 as (cs & Hset & ->). simpl.
      split; [done|]. split; [by eapply set2_dims|].
      intros _. by eapply set2_get2_eq.
    - injection E1 as <-. split; [apply visit_rel_refl|]. split; [done|].
      intros ?. exfalso. by apply Hc. }
  pose proof (visit_rel_fields _ _ Hrel1) as
    (Hrows&Hcols&Hgrid&Hstart&Htarget&_&_&Hexpf&Hexpb&Hcount&Hsearch&_).
  simpl in Hrows, Hcols, Hgrid, Hstart, Htarget, Hexpf, Hexpb, Hcount,
    Hsearch.
  assert (pres_rel app app1) as Hpres1.
  { eapply pres_rel_trans; [|by apply visit_rel_pres].
    unfold pres_rel. split_and!; try reflexivity. apply same_shape_refl. }
  rewrite Hexpb in H.
  case_bool_decide as Hmeet.
  - destruct (reconstruct_bidirectional_path _) as [app2|] eqn:E2;
      simpl in H; [|discriminate].
    injection H as <-.
    apply reconstruct_bidirectional_path_inv in E2 as (p & Hrel2).
    pose proof (visit_rel_fields _ _ Hrel2) as
      (_&_&_&_&_&_&_&_&_&Hcount2&_).
    simpl in Hcount2.
    split.
    + eapply pres_rel_trans; [exact Hpres1|].
      eapply pres_rel_trans; [|apply pres_rel_finish].
      eapply pres_rel_trans; [|by apply visit_rel_pres].
      unfold pres_rel. split_and!; try reflexivity. apply same_shape_refl.
    + unfold finish_search. destruct (decide _); simpl;
        split_and!; congruence.
  - destruct (get_neighbors _ _ _ _) as [ns|] eqn:Ens; simpl in H;
      [|discriminate].
    destruct (for_each (forward_visit current) app1 ns) as [app2|] eqn:E2;
      simpl in H; [|discriminate].
    injection H as <-.
    destruct (visit_loop (fun a => a.(explored_forward))
                (forward_visit current) ns app1 app2 current)
      as (Hrel2 & _ & Hk); [|apply forward_visit_turn|done|].
    { intros a a' Ha.
      pose proof (visit_rel_fields _ _ Ha) as (_&_&_&_&_&_&_&He&_).
      exact He. }
    pose proof (visit_rel_fields _ _ Hrel2) as
      (_&_&_&_&_&_&_&Hexpf2&_&Hcount2&Hsearch2&_).
    split.
    + eapply pres_rel_trans; [exact Hpres1|].
      eapply pres_rel_trans; [by apply visit_rel_pres|].
      unfold pres_rel. split_and!; try reflexivity. apply same_shape_refl.
    + simpl. split_and!; try congruence.
      intros Hb Hu. rewrite Hrows, Hcols in Hk. rewrite Hk.
      * by apply Hmark.
      * done.
      * apply Forall_forall. intros x Hx.
        rewrite Hgrid, Hrows, Hcols in Ens.
        by apply (elem_of_neighbors _ _ _ _ _ _ Ens) in Hx as [_ [? _]].
      * done.
      * simpl. rewrite Hexpf. set_solver.
Qed.

Lemma backward_side_effect current rest app app' :
  matrix_dims (app.(cell_states)) (app.(rows)) (app.(cols)) ->
  backward_side current rest app = Some app' ->
  pres_rel app app'
  ∧ effect_of (if bool_decide (current ∈ app.(explored_forward))
               then Found current else Expanded Backward current) app app'.
Proof.
  intros Hdims H. unfold backward_side in H.
  match type of H with (?m ≫= _) = _ => destruct m as [app1|] eqn:E1 end;
    simpl in H; [|discriminate].
  assert (visit_rel
            (set_explored_backward ({[current]} ∪ app.(explored_backward))
               (set_frontier_backward rest app)) app1 ∧
          matrix_dims (app1.(cell_states)) (app.(rows)) (app.(cols)) ∧
          (current ≠ app.(target) ->
           get2 (app1.(cell_states)) current.1 current.2 = Some EXPLORED2))
    as (Hrel1 & Hdims1 & Hmark).
  { destruct (decide (current ≠ app.(target))) as [Hc|Hc];
      [rewrite (bool_decide_eq_true_2 _ Hc) in E1
      |rewrite (bool_decide_eq_false_2 _ Hc) in E1].
    - pose proof (visit_rel_paint _ _ _ _ E1) as Hr.
      apply paint_inv in E1 as (cs & Hset & ->). simpl.
      split; [done|]. split; [by eapply set2_dims|].
      intros _. by eapply set2_get2_eq.
    - injection E1 as <-. split; [apply visit_rel_refl|]. split; [done|].
      intros ?. exfalso. by apply Hc. }
  pose proof (visit_rel_fields _ _ Hrel1) as
    (Hrows&Hcols&Hgrid&Hstart&Htarget&_&_&Hexpf&Hexpb&Hcount&Hsearch&_).
  simpl in Hrows, Hcols, Hgrid, Hstart, Htarget, Hexpf, Hexpb, Hcount,
    Hsearch.
  assert (pres_rel app app1) as Hpres1.
  { eapply pres_rel_trans; [|by apply visit_rel_pres].
    unfold pres_rel. split_and!; try reflexivity. apply same_shape_refl. }
  rewrite Hexpf in H.
  case_bool_decide as Hmeet.
  - destruct (reconstruct_bidirectional_path _) as [app2|] eqn:E2;
      simpl in H; [|discriminate].
    injection H as <-.
    apply reconstruct_bidirectional_path_inv in E2 as (p & Hrel2).
    pose proof (visit_rel_fields _ _ Hrel2) as
      (_&_&_&_&_&_&_&_&_&Hcount2&_).
    simpl in Hcount2.
    split.
    + eapply pres_rel_trans; [exact Hpres1|].
      eapply pres_rel_trans; [|apply pres_rel_finish].
      eapply pres_rel_trans; [|by apply visit_rel_pres].
      unfold pres_rel. split_and!; try reflexivity. apply same_shape_refl.
    + unfold finish_search. destruct (decide _); simpl;
        split_and!; congruence.
  - destruct (get_neighbors _ _ _ _) as [ns|] eqn:Ens; simpl in H;
      [|discriminate].
    destruct (for_each (backward_visit current) app1 ns) as [app2|] eqn:E2;
      simpl in H; [|discriminate].
    injection H as <-.
    destruct (visit_loop (fun a => a.(explored_backward))
                (backward_visit current) ns app1 app2 current)
      as (Hrel2 & _ & Hk); [|apply backward_visit_turn|done|].
    { intros a a' Ha.
      pose proof (visit_rel_fields _ _ Ha) as (_&_&_&_&_&_&_&_&He&_).
      exact He. }
    pose proof (visit_rel_fields _ _ Hrel2) as
      (_&_&_&_&_&_&_&_&Hexpb2&Hcount2&Hsearch2&_).
    split.
    + eapply pres_rel_trans; [exact Hpres1|].
      eapply pres_rel_trans; [by apply visit_rel_pres|].
      unfold pres_rel. split_and!; try reflexivity. apply same_shape_refl.
    + simpl. split_and!; try congruence.
      intros Hb Hu. rewrite Hrows, Hcols in Hk. rewrite Hk.
      * by apply Hmark.
      * done.
      * apply Forall_forall. intros x Hx.
        rewrite Hgrid, Hrows, Hcols in Ens.
        by apply (elem_of_neighbors _ _ _ _ _ _ Ens) in Hx as [_ [? _]].
      * done.
      * simpl. rewrite Hexpb. set_solver.
Qed.

Lemma bidirectional_step_effect app app' :
  matrix_dims (app.(cell_states)) (app.(rows)) (app.(cols)) ->
  app.(selected_algorithm) = Bidirectional ->
  bidirectional_step app = Some app' ->
  pres_rel app app' ∧ step_effect app app'.
Proof.
  intros Hdims Halgo H. unfold step_effect, classify. rewrite Halgo.
  unfold bidirectional_step in H.
  assert (∀ kind,
            match (if bool_decide (app.(step_count) `mod` 2 = 0)
                   then app.(frontier_forward) else []) with
            | current :: rest => forward_side current rest app
            | [] =>
                match app.(frontier_backward) with
                | current :: rest => backward_side current rest app
                | [] => Some (set_step_count (app.(step_count) + 1) app)
                end
            end = Some app' ->
            kind = match (if bool_decide (app.(step_count) `mod` 2 = 0)
                          then app.(frontier_forward) else []) with
                   | current :: _ =>
                       if bool_decide (current ∈ app.(explored_backward))
                       then Found current else Expanded Forward current
                   | [] =>
                       match app.(frontier_backward) with
                       | current :: _ =>
                           if bool_decide (current ∈ app.(explored_forward))
                           then Found current
                           else Expanded Backward current
                       | [] => Idle
                       end
                   end ->
            pres_rel app app' ∧ effect_of kind app app') as Hturn.
  { intros kind H' ->.
    destruct (if bool_decide (app.(step_count) `mod` 2 = 0)
              then app.(frontier_forward) else []) as [|c rest].
    - destruct (app.(frontier_backward)) as [|c rest].
      + injection H' as <-. split; [|by simpl].
        unfold pres_rel. split_and!; try reflexivity. apply same_shape_refl.
      + by apply (backward_side_effect c rest).
    - by apply (forward_side_effect c rest). }
  destruct (app.(frontier_forward)) as [|cf restf] eqn:Ef;
    destruct (app.(frontier_backward)) as [|cb restb] eqn:Eb;
    try (by apply Hturn).
  injection H as <-. apply finish_false_effect.
Qed.

Lemma algorithm_step_effect app app' :
  matrix_dims (app.(cell_states)) (app.(rows)) (app.(cols)) ->
  algorithm_step app = Some app' ->
  pres_rel app app' ∧ step_effect app app'.
Proof.
  intros Hdims H. unfold algorithm_step in H.
  destruct (app.(selected_algorithm)) eqn:Halgo.
  - by apply bfs_step_effect.
  - by apply dfs_step_effect.
  - by apply ucs_step_effect.
  - by apply dls_step_effect.
  - by apply iddfs_step_effect.
  - by apply bidirectional_step_effect.
Qed.

(** The colour of a cell whose type is Start or Target does not depend on
    the overlay. *)
Lemma get_cell_color_marker grid cs r c ty :
  get2 grid r c = Some ty -> ty = START ∨ ty = TARGET ->
  is_Some (get2 cs r c) ->
  get_cell_color grid cs r c
  = Some (if decide (ty = START) then Colors.START else Colors.TARGET).
Proof.
  intros Hty Hm [st Hst]. unfold get_cell_color. rewrite Hty, Hst. simpl.
  destruct Hm as [->| ->]; by simpl.
Qed.


(** The depth-limited search on [walled24] after four steps: the pair on top
    of its stack holds a visited node. *)
Definition dls_walled_step4 : App :=
  default (new_app 2 4 walled24 (0, 0) (0, 3) DLS 20)
    (search 4 (new_app 2 4 walled24 (0, 0) (0, 3) DLS 20)).


(** * The start of a run *)

(** The state [start_search] builds, given the overlay with the Start (and,
    for bidirectional search, the Target) painted. *)
Definition initial (rows cols : Z) (grid : list (list CellType))
    (start target : node) (algo : Algorithm) (depth_limit : Z)
    (cs : list (list CellState)) : App :=
  mkApp rows cols grid cs start target algo
    (match algo with BFS | DFS => [start] | _ => [] end)
    (match algo with UCS => [(0%float, start)] | _ => [] end)
    (match algo with DLS | IDDFS => [(start, 0)] | _ => [] end)
    ∅
    (match algo with Bidirectional => ∅ | _ => {[start := None]} end)
    [] false true 0 depth_limit 0
    (match algo with UCS => {[start := 0%float]} | _ => ∅ end)
    (match algo with Bidirectional => [start] | _ => [] end)
    (match algo with Bidirectional => [target] | _ => [] end)
    ∅ ∅
    (match algo with Bidirectional => {[start := None]} | _ => ∅ end)
    (match algo with Bidirectional => {[target := None]} | _ => ∅ end)
    None (MsgSearching algo).

Lemma in_bounds_nonneg rows cols nd :
  in_bounds rows cols nd -> 0 <= rows ∧ 0 <= cols.
Proof. intros [? ?]. lia. Qed.

Lemma start_search_new rows cols grid start target algo depth_limit :
  in_bounds rows cols start -> in_bounds rows cols target ->
  ∃ cs,
    start_search (new_app rows cols grid start target algo depth_limit)
    = Some (initial rows cols grid start target algo depth_limit cs)
    ∧ matrix_dims cs rows cols.
Proof.
  intros Hs Ht. destruct (in_bounds_nonneg _ _ _ Hs) as [Hr Hc].
  pose proof (create_dims rows cols NONE Hr Hc) as Hdims.
  destruct start as [sr sc], target as [tr tc].
  destruct (set2_in_bounds _ rows cols sr sc FRONTIER Hdims Hs)
    as (cs1 & Hset1 & Hdims1).
  destruct (set2_in_bounds _ rows cols tr tc FRONTIER2 Hdims1 Ht)
    as (cs2 & Hset2 & Hdims2).
  unfold start_search, new_app, clear_search, paint, create_cell_states.
  destruct algo; simpl; rewrite Hset1; simpl;
    try (by exists cs1).
  rewrite Hset2. simpl. by exists cs2.
Qed.

Lemma walk_back_None cf fuel : walk_back cf fuel None = Some [].
Proof. by destruct fuel. Qed.

(** A predecessor map that only holds the root: the walk from the root
    returns the root. *)
Lemma walk_root (s : node) : walk {[s := None]} (Some s) = Some [s].
Proof.
  unfold walk. simpl. rewrite lookup_singleton_eq.
  by rewrite walk_back_None.
Qed.

Lemma reconstruct_path_start_is_target app :
  app.(target) = app.(start) ->
  app.(came_from) = {[app.(start) := None]} ->
  reconstruct_path app
  = Some (set_final_path [app.(start); app.(start)] app).
Proof.
  intros Ht Hcf. unfold reconstruct_path. rewrite Hcf, Ht, walk_root. simpl.
  unfold mark_path. simpl.
  rewrite bool_decide_eq_false_2 by (intros [H _]; by apply H). simpl.
  rewrite bool_decide_eq_false_2 by (intros [H _]; by apply H). reflexivity.
Qed.

Lemma first_step_start_is_target rows cols grid s algo depth_limit cs :
  algo ≠ Bidirectional ->
  ∃ app,
    algorithm_step (initial rows cols grid s s algo depth_limit cs) = Some app
    ∧ app.(searching) = false ∧ app.(search_complete) = true
    ∧ app.(step_count) = 0
    ∧ app.(status_message)
      = MsgPathFound algo 0 1 2
          (if decide (algo = IDDFS) then Some 0 else None).
Proof.
  intros Halgo.
  assert (Hrec : ∀ app, app.(target) = s -> app.(start) = s ->
                        app.(came_from) = {[s := None]} ->
                        reconstruct_path app
                        = Some (set_final_path [s; s] app)).
  { intros app Ht Hs Hcf. rewrite <- Hs.
    apply reconstruct_path_start_is_target; congruence. }
  destruct algo; try done;
    unfold algorithm_step, initial; simpl;
    unfold bfs_step, dfs_step, ucs_step, dls_step, iddfs_step,
      expand_limited; simpl;
    rewrite ?(bool_decide_eq_false_2 (s ∈ ∅)) by set_solver;
    rewrite ?(bool_decide_eq_false_2 (s ≠ s ∧ s ≠ s)) by (by intros [? ?]);
    simpl; rewrite ?(bool_decide_eq_true_2 (s = s)) by done;
    rewrite Hrec by done; simpl; eexists; (split; [reflexivity|]);
    unfold finish_search; cbn; split_and!; try reflexivity;
    rewrite decide_False by done;
    by rewrite union_empty_r_L, size_singleton.
Qed.

Lemma walk_at_root cf (s : node) :
  cf !! s = Some None -> walk cf (Some s) = Some [s].
Proof.
  intros H. unfold walk. simpl. rewrite H. by rewrite walk_back_None.
Qed.

Lemma mark_path_ends app (s : node) :
  app.(start) = s -> app.(final_path) = [s; s] -> mark_path app = Some app.
Proof.
  intros Hs Hp. unfold mark_path. rewrite Hp. simpl. rewrite Hs.
  rewrite bool_decide_eq_false_2 by (intros [H _]; by apply H). simpl.
  by rewrite bool_decide_eq_false_2 by (intros [H _]; by apply H).
Qed.

(** The first tick of a bidirectional run: the forward side expands the
    Start. *)
Lemma forward_first_tick rows cols grid s t depth_limit cs ns cs' :
  get_neighbors grid s rows cols = Some ns ->
  paint_list cs (filter (fun n => n ≠ t) (discovered {[s]} [] ns)) FRONTIER
  = Some cs' ->
  algorithm_step (initial rows cols grid s t Bidirectional depth_limit cs)
  = Some (set_step_count 1
            (set_cell_states cs'
               (set_came_from_forward
                  (record_all s {[s := None]} (discovered {[s]} [] ns))
                  (set_frontier_forward (discovered {[s]} [] ns)
                     (set_explored_forward {[s]}
                        (initial rows cols grid s t Bidirectional
                           depth_limit cs)))))).
Proof.
  intros Hns Hp.
  pose proof (neighbors_NoDup _ _ _ _ _ Hns) as Hnd.
  unfold algorithm_step, initial, bidirectional_step, forward_side. simpl.
  rewrite (bool_decide_eq_false_2 (s ≠ s)) by (intros H; by apply H).
  simpl. rewrite (bool_decide_eq_false_2 (s ∈ ∅)) by set_solver.
  rewrite Hns. simpl. rewrite (forward_visit_loop _ _ _ Hnd). simpl.
  rewrite union_empty_r_L. rewrite Hp. simpl.
  rewrite ?union_empty_r_L. reflexivity.
Qed.

(** A backward tick that extracts the node which is both Start and Target
    once the forward side has visited it. *)
Lemma backward_meets_at_start app (s : node) rest :
  app.(selected_algorithm) = Bidirectional ->
  app.(step_count) `mod` 2 ≠ 0 ->
  app.(frontier_backward) = s :: rest ->
  app.(start) = s -> app.(target) = s ->
  s ∈ app.(explored_forward) ->
  app.(came_from_forward) !! s = Some None ->
  app.(came_from_backward) !! s = Some None ->
  algorithm_step app
  = Some (finish_search true
            (set_final_path [s; s]
               (set_meeting_point (Some s)
                  (set_explored_backward ({[s]} ∪ app.(explored_backward))
                     (set_frontier_backward rest app))))).
Proof.
  intros Halgo Hodd Hfb Hs Ht Hvis Hcff Hcfb.
  unfold algorithm_step. rewrite Halgo. unfold bidirectional_step.
  rewrite Hfb. rewrite (bool_decide_eq_false_2 _ Hodd).
  assert (∀ X : option App,
            match app.(frontier_forward) with
            | [] | _ => X
            end = X) as -> by (by destruct (app.(frontier_forward))).
  unfold backward_side. simpl. rewrite Ht.
  rewrite (bool_decide_eq_false_2 (s ≠ s)) by (intros H; by apply H).
  simpl. rewrite (bool_decide_eq_true_2 _ Hvis).
  unfold reconstruct_bidirectional_path. simpl.
  rewrite (walk_at_root _ _ Hcff). simpl. rewrite Hcfb, Hs. simpl.
  by rewrite (mark_path_ends _ s).
Qed.

Lemma two_ticks_start_is_target rows cols grid s depth_limit cs :
  matrix_dims grid rows cols -> matrix_dims cs rows cols ->
  ∃ app1 app2,
    algorithm_step (initial rows cols grid s s Bidirectional depth_limit cs)
    = Some app1
    ∧ app1.(searching) = true ∧ app1.(step_count) = 1
    ∧ app1.(selected_algorithm) = Bidirectional
    ∧ algorithm_step app1 = Some app2
    ∧ app2.(searching) = false ∧ app2.(search_complete) = true
    ∧ app2.(step_count) = 1
    ∧ app2.(status_message) = MsgPathFound Bidirectional 1 2 2 None.
Proof.
  intros Hg Hcs.
  destruct (get_neighbors_total grid rows cols s Hg) as [ns Hns].
  destruct (paint_list_total cs rows cols
              (filter (fun n => n ≠ s) (discovered {[s]} [] ns)) FRONTIER Hcs)
    as (cs' & Hp & _).
  { apply Forall_forall.
    intros x [_ [_ Hx]%list_elem_of_filter]%list_elem_of_filter.
    by apply (elem_of_neighbors _ _ _ _ _ _ Hns) in Hx as [_ [? _]]. }
  eexists _, _.
  split; [by apply (forward_first_tick _ _ _ _ _ _ _ ns cs')|].
  split; [reflexivity|]. split; [reflexivity|]. split; [reflexivity|].
  split.
  { apply (backward_meets_at_start _ s []); try reflexivity.
    - by simpl.
    - simpl. set_solver.
    - simpl. rewrite record_all_lookup, decide_False;
        [by rewrite lookup_singleton_eq|].
      unfold discovered. rewrite list_elem_of_filter. set_solver.
    - simpl. by rewrite lookup_singleton_eq. }
  unfold finish_search. cbn. split_and!; try reflexivity.
  by rewrite union_empty_r_L, !size_singleton.
Qed.

Lemma search_run n app app0 :
  start_search app = Some app0 -> search n app = run n app0.
Proof. intros H. unfold search. by rewrite H. Qed.

Lemma run_S n app : run (S n) app = update app ≫= run n.
Proof. reflexivity. Qed.

Lemma update_searching app :
  app.(searching) = true -> update app = algorithm_step app.
Proof. intros H. unfold update. by rewrite H. Qed.

Lemma update_finished app :
  app.(searching) = false -> update app = Some app.
Proof. intros H. unfold update. by rewrite H. Qed.

(** C3, amended: on every grid in which Start equals Target, each of the five
    unidirectional algorithms reports success on its first step, with zero
    expansion steps counted; bidirectional search is still running after its
    first tick, which expands the Start on the forward side and counts one
    step, and reports success on its second tick, with the counter at 1. *)
Theorem start_is_target rows cols grid s algo depth_limit :
  matrix_dims grid rows cols -> in_bounds rows cols s ->
  if decide (algo = Bidirectional) then
    ∃ app1 app2,
      search 1 (new_app rows cols grid s s algo depth_limit) = Some app1
      ∧ app1.(searching) = true ∧ app1.(step_count) = 1
      ∧ search 2 (new_app rows cols grid s s algo depth_limit) = Some app2
      ∧ app2.(searching) = false ∧ app2.(search_complete) = true
      ∧ app2.(step_count) = 1
      ∧ ∃ n p, app2.(status_message) = MsgPathFound Bidirectional 1 n p None
  else
    ∃ app,
      search 1 (new_app rows cols grid s s algo depth_limit) = Some app
      ∧ app.(searching) = false ∧ app.(search_complete) = true
      ∧ app.(step_count) = 0
      ∧ ∃ n p d, app.(status_message) = MsgPathFound algo 0 n p d.
Proof.
  intros Hg Hs.
  destruct (start_search_new rows cols grid s s algo depth_limit Hs Hs)
    as (cs & Hstart & Hcs).
  rewrite !(search_run _ _ _ Hstart).
  assert ((initial rows cols grid s s algo depth_limit cs).(searching)
          = true) as Hrun by (by destruct algo).
  destruct (decide (algo = Bidirectional)) as [->|Halgo].
  - destruct (two_ticks_start_is_target rows cols grid s depth_limit cs Hg Hcs)
      as (app1 & app2 & H1 & Hs1 & Hc1 & Ha1 & H2 & Hs2 & Hd2 & Hc2 & Hm2).
    exists app1, app2.
    rewrite !run_S, (update_searching _ Hrun), H1. simpl.
    rewrite (update_searching _ Hs1), H2. simpl.
    split_and!; try done. by eexists _, _.
  - destruct (first_step_start_is_target rows cols grid s algo depth_limit cs
                Halgo) as (app & H1 & Hs1 & Hd1 & Hc1 & Hm1).
    exists app. rewrite run_S, (update_searching _ Hrun), H1. simpl.
    split_and!; try done. by eexists _, _, _.
Qed.

Lemma start_is_target_witness :
  (∃ app,
     search 1 (new_app 1 1 single_cell (0, 0) (0, 0) BFS 20) = Some app
     ∧ app.(searching) = false ∧ app.(step_count) = 0)
  ∧ (∃ app2,
       search 2 (new_app 1 1 single_cell (0, 0) (0, 0) Bidirectional 20)
       = Some app2
       ∧ app2.(searching) = false ∧ app2.(step_count) = 1).
Proof.
  assert (matrix_dims single_cell 1 1) as Hg
    by (split; [reflexivity|by repeat constructor]).
  assert (in_bounds 1 1 (0, 0)) as Hs by (by vm_compute).
  split.
  - destruct (start_is_target 1 1 single_cell (0, 0) BFS 20 Hg Hs)
      as (app & H & Hs1 & _ & Hc & _).
    exists app. by split_and!.
  - destruct (start_is_target 1 1 single_cell (0, 0) Bidirectional 20 Hg Hs)
      as (app1 & app2 & _ & _ & _ & H & Hs2 & _ & Hc & _).
    exists app2. by split_and!.
Defined.

(** * Unreachable targets *)

(** The cells of a grid of the given dimensions. *)
Definition cells (rows cols : Z) : gset node :=
  list_to_set (r ← seqZ 0 rows; c ← seqZ 0 cols; [(r, c)]).

Lemma elem_of_cells rows cols nd : nd ∈ cells rows cols ↔ in_bounds rows cols nd.
Proof.
  unfold cells, in_bounds. rewrite elem_of_list_to_set, list_elem_of_bind.
  destruct nd as [r c]. simpl. split.
  - intros (r' & Hc & Hr). apply list_elem_of_bind in Hc as (c' & Hin & Hc).
    apply list_elem_of_singleton in Hin. injection Hin as -> ->.
    apply elem_of_seqZ in Hr, Hc. lia.
  - intros [Hr Hc]. exists r. split; [|apply elem_of_seqZ; lia].
    apply list_elem_of_bind. exists c. split; [by apply list_elem_of_singleton|].
    apply elem_of_seqZ. lia.
Qed.

(** How many cells of the grid are outside a visited set. *)
Definition unexplored (rows cols : Z) (visited : gset node) : nat :=
  size (cells rows cols ∖ visited).

Lemma unexplored_add rows cols visited nd :
  in_bounds rows cols nd -> nd ∉ visited ->
  (unexplored rows cols ({[nd]} ∪ visited) < unexplored rows cols visited)%nat.
Proof.
  intros Hb Hv. unfold unexplored. apply subset_size.
  apply elem_of_cells in Hb. set_solver.
Qed.

Lemma unexplored_le rows cols visited :
  (unexplored rows cols visited <= size (cells rows cols))%nat.
Proof. unfold unexplored. apply subseteq_size. set_solver. Qed.

(** [heappop] takes one entry out of the bag and leaves the others. *)
Lemma pop_min_perm x l :
  x :: l ≡ₚ (pop_min x l).1 :: (pop_min x l).2.
Proof.
  revert x. induction l as [|y l IH]; intros x; simpl; [done|].
  specialize (IH y). destruct (pop_min y l) as [m rest]. simpl in IH.
  destruct (entry_ltb m x); simpl; [|done].
  rewrite IH. apply Permutation_swap.
Qed.

(** Stepping a run whose steps keep an invariant and lower a measure until
    they end the search. *)
Lemma run_until (Inv : App -> Prop) (measure : App -> nat) (Q : App -> Prop) :
  (∀ app, Inv app -> app.(searching) = true) ->
  (∀ app, Inv app ->
     ∃ app', algorithm_step app = Some app'
             ∧ ((app'.(searching) = false ∧ Q app')
                ∨ (Inv app' ∧ (measure app' < measure app)%nat))) ->
  ∀ app, Inv app ->
    ∃ n app', run n app = Some app' ∧ app'.(searching) = false ∧ Q app'.
Proof.
  intros Hrun Hstep app Hinv.
  remember (measure app) as m eqn:Hm. revert app Hm Hinv.
  induction m as [m IHm] using lt_wf_ind. intros app -> Hinv.
  destruct (Hstep app Hinv) as (app1 & H1 & [[Hs HQ]|[Hinv1 Hlt]]).
  - exists 1%nat, app1. rewrite run_S, (update_searching _ (Hrun _ Hinv)), H1.
    by simpl.
  - destruct (IHm _ Hlt app1 eq_refl Hinv1) as (n & app' & Hn & Hs & HQ).
    exists (S n), app'.
    by rewrite run_S, (update_searching _ (Hrun _ Hinv)), H1.
Qed.

(** The frontier an algorithm works on is empty. *)
Definition frontier_exhausted (app : App) : Prop :=
  match app.(selected_algorithm) with
  | BFS | DFS => app.(frontier) = []
  | UCS => app.(frontier_pq) = []
  | DLS | IDDFS => app.(frontier_dl) = []
  | Bidirectional =>
      app.(frontier_forward) = [] ∧ app.(frontier_backward) = []
  end.

(** The search has ended, with failure as its reported outcome: the status
    line is the one [finish_search(False)] writes. *)
Definition failed (algo : Algorithm) (app : App) : Prop :=
  app.(searching) = false ∧ app.(search_complete) = true
  ∧ app.(selected_algorithm) = algo
  ∧ frontier_exhausted app
  ∧ ∃ extra,
      app.(status_message) = MsgNoPath algo (app.(step_count)) extra.

Lemma finish_false_failed algo app :
  app.(selected_algorithm) = algo -> frontier_exhausted app ->
  failed algo (finish_search false app).
Proof.
  intros <- H. unfold failed, finish_search. cbn.
  split_and!; try done. by eexists.
Qed.

Section Unreachable.

Context (R C : Z) (G : list (list CellType)) (s t : node).
Context (HG : matrix_dims G R C).
Context (Hs : in_bounds R C s).
Context (Hopen : open_cell G R C t).
Context (Hunreach : ¬ rtc (edge G R C) s t).

(** A node inside the grid that can be reached from [a]. *)
Definition good (a n : node) : Prop :=
  in_bounds R C n ∧ rtc (edge G R C) a n.

(** What every step keeps of a running search on this grid. *)
Definition base_inv (algo : Algorithm) (app : App) : Prop :=
  app.(rows) = R ∧ app.(cols) = C ∧ app.(grid) = G
  ∧ app.(start) = s ∧ app.(target) = t
  ∧ app.(selected_algorithm) = algo
  ∧ app.(searching) = true
  ∧ matrix_dims (app.(cell_states)) R C.

Lemma good_start : good s s.
Proof. split; [done|apply rtc_refl]. Qed.

Lemma good_neighbor a c ns n :
  good a c -> get_neighbors G c R C = Some ns -> n ∈ ns -> good a n.
Proof.
  intros [_ Hc] Hns Hn.
  apply (elem_of_neighbors _ _ _ _ _ _ Hns) in Hn.
  split; [by destruct Hn as [_ [? _]]|]. by eapply rtc_r.
Qed.

Lemma good_not_target n : good s n -> n ≠ t.
Proof. intros [_ Hn] ->. by apply Hunreach. Qed.

(** Between open cells the moves can be walked backwards. *)
Lemma rtc_edge_back a b :
  open_cell G R C a -> rtc (edge G R C) a b ->
  rtc (edge G R C) b a ∧ open_cell G R C b.
Proof.
  intros Ha H. revert b H. apply rtc_ind_r; [by split; [apply rtc_refl|]|].
  intros b c _ Hbc [Hba Hb]. split; [|by destruct Hbc as [_ ?]].
  eapply rtc_l; [|exact Hba]. by apply edge_sym.
Qed.

(** No node is reached from both ends. *)
Lemma no_meeting n : good s n -> good t n -> False.
Proof.
  intros [_ Hsn] [_ Htn]. apply Hunreach.
  etrans; [exact Hsn|]. by apply (rtc_edge_back t n).
Qed.

(** Painting the extracted node, inside the grid. *)
Lemma mark_total (b : bool) c state app :
  matrix_dims (app.(cell_states)) R C -> in_bounds R C c ->
  ∃ cs, (if b then paint c state app else Some app)
        = Some (set_cell_states cs app)
        ∧ matrix_dims cs R C.
Proof.
  intros Hd Hc. destruct b; [|by exists (app.(cell_states))].
  destruct c as [r c]. unfold paint. simpl.
  destruct (set2_in_bounds _ R C r c state Hd Hc) as (cs & -> & Hcs).
  by exists cs.
Qed.

Lemma neighbors_in_bounds c ns :
  get_neighbors G c R C = Some ns -> Forall (in_bounds R C) ns.
Proof.
  intros Hns. apply Forall_forall. intros x Hx.
  by apply (elem_of_neighbors _ _ _ _ _ _ Hns) in Hx as [_ [? _]].
Qed.

(** ** Breadth-first search *)

Definition bfs_inv (app : App) : Prop :=
  base_inv BFS app
  ∧ Forall (good s) (app.(frontier))
  ∧ NoDup (app.(frontier))
  ∧ (∀ x, x ∈ app.(frontier) -> x ∉ app.(explored)).

Lemma bfs_progress app :
  bfs_inv app ->
  ∃ app', algorithm_step app = Some app'
          ∧ (failed BFS app'
             ∨ (bfs_inv app'
                ∧ (unexplored R C (app'.(explored))
                   < unexplored R C (app.(explored)))%nat)).
Proof.
  intros ((Hrows & Hcols & Hgrid & Hstart & Htarget & Halgo & Hrun & Hdims)
          & Hgood & Hnd & Hdisj).
  unfold algorithm_step. rewrite Halgo. unfold bfs_step.
  destruct (app.(frontier)) as [|c rest] eqn:Efr.
  - eexists. split; [reflexivity|]. left. apply finish_false_failed; [done|].
    unfold frontier_exhausted. by rewrite Halgo.
  - apply Forall_cons in Hgood as [Hc Hgood].
    apply NoDup_cons in Hnd as [Hcrest Hnd].
    pose proof (good_not_target _ Hc) as Hct.
    destruct (mark_total
                (bool_decide (c ≠ app.(start) ∧ c ≠ app.(target))) c EXPLORED
                (set_explored ({[c]} ∪ app.(explored))
                   (set_frontier rest app)))
      as (cs1 & Hmark & Hcs1); [done|by destruct Hc|].
    simpl in Hmark. simpl. rewrite Hmark. simpl.
    rewrite Htarget, (bool_decide_eq_false_2 _ Hct).
    rewrite Hgrid, Hrows, Hcols.
    destruct (get_neighbors_total G R C c HG) as [ns Hns]. rewrite Hns. simpl.
    pose proof (neighbors_NoDup _ _ _ _ _ Hns) as Hndns.
    rewrite (bfs_visit_loop _ _ _ Hndns). simpl.
    set (new := discovered ({[c]} ∪ app.(explored)) rest ns).
    assert (Forall (in_bounds R C) new) as Hnewb.
    { apply Forall_forall. intros x Hx.
      apply list_elem_of_filter in Hx as [_ Hx].
      revert x Hx. apply Forall_forall. by apply (neighbors_in_bounds c). }
    match goal with
    | |- context [paint_list ?a ?b ?st] =>
        destruct (paint_list_total a R C b st) as (cs2 & Hp & Hcs2);
        [done| |]
    end.
    { apply Forall_forall. intros x [_ Hx]%list_elem_of_filter.
      revert x Hx. by apply Forall_forall. }
    rewrite Hp. simpl. eexists. split; [reflexivity|]. right. split.
    + split; [by unfold base_inv|]. simpl. split; [|split].
      * apply Forall_app. split; [done|].
        apply Forall_forall. intros x [_ Hx]%list_elem_of_filter.
        by eapply good_neighbor.
      * apply NoDup_app. split; [done|]. split.
        -- intros x Hx [[_ Hxr] _]%list_elem_of_filter. by apply Hxr.
        -- by apply NoDup_filter.
      * intros x [Hx|Hx]%elem_of_app.
        -- apply not_elem_of_union. split.
           ++ apply not_elem_of_singleton. intros ->. by apply Hcrest.
           ++ apply Hdisj. by right.
        -- by apply list_elem_of_filter in Hx as [[Hx _] _].
    + simpl. apply unexplored_add; [by destruct Hc|].
      apply Hdisj. by left.
Qed.

(** ** Depth-first search *)

Definition dfs_inv (app : App) : Prop :=
  base_inv DFS app ∧ Forall (good s) (app.(frontier)).

Definition dfs_measure (app : App) : nat :=
  7 * unexplored R C (app.(explored)) + length (app.(frontier)).

Lemma dfs_progress app :
  dfs_inv app ->
  ∃ app', algorithm_step app = Some app'
          ∧ (failed DFS app'
             ∨ (dfs_inv app' ∧ (dfs_measure app' < dfs_measure app)%nat)).
Proof.
  intros ((Hrows & Hcols & Hgrid & Hstart & Htarget & Halgo & Hrun & Hdims)
          & Hgood).
  unfold algorithm_step. rewrite Halgo. unfold dfs_step, dfs_measure.
  destruct (app.(frontier)) as [|c rest] eqn:Efr.
  - eexists. split; [reflexivity|]. left. apply finish_false_failed; [done|].
    unfold frontier_exhausted. by rewrite Halgo.
  - apply Forall_cons in Hgood as [Hc Hgood]. simpl.
    case_bool_decide as Hex.
    { eexists. split; [reflexivity|]. right. split; [by split|].
      simpl. lia. }
    pose proof (good_not_target _ Hc) as Hct.
    destruct (mark_total
                (bool_decide (c ≠ app.(start) ∧ c ≠ app.(target))) c EXPLORED
                (set_explored ({[c]} ∪ app.(explored))
                   (set_frontier rest app)))
      as (cs1 & Hmark & Hcs1); [done|by destruct Hc|].
    simpl in Hmark. rewrite Hmark. simpl.
    rewrite Htarget, (bool_decide_eq_false_2 _ Hct).
    rewrite Hgrid, Hrows, Hcols.
    destruct (get_neighbors_total G R C c HG) as [ns Hns]. rewrite Hns. simpl.
    assert (NoDup (reverse ns)) as Hndns.
    { rewrite reverse_Permutation. by eapply neighbors_NoDup. }
    rewrite (dfs_visit_loop _ _ _ Hndns). simpl.
    set (new := discovered ({[c]} ∪ app.(explored)) rest (reverse ns)).
    assert (∀ x, x ∈ new -> x ∈ ns) as Hnew.
    { intros x [_ Hx]%list_elem_of_filter. by rewrite elem_of_reverse in Hx. }
    assert (length new <= 6)%nat as Hlen.
    { unfold new, discovered. etrans; [apply length_filter|].
      rewrite length_reverse. by eapply neighbors_length. }
    match goal with
    | |- context [paint_list ?a ?b ?st] =>
        destruct (paint_list_total a R C b st) as (cs2 & Hp & Hcs2);
        [done| |]
    end.
    { apply Forall_forall. intros x [_ Hx]%list_elem_of_filter.
      apply Hnew in Hx. revert x Hx. apply Forall_forall.
      by apply (neighbors_in_bounds c). }
    rewrite Hp. simpl. eexists. split; [reflexivity|]. right. split.
    + split; [by unfold base_inv|]. simpl.
      apply Forall_app. split; [|done]. apply Forall_reverse.
      apply Forall_forall. intros x Hx. eapply good_neighbor; eauto.
    + simpl. rewrite length_app, length_reverse.
      pose proof (unexplored_add R C (app.(explored)) c) as Hu.
      specialize (Hu (proj1 Hc) Hex). lia.
Qed.

(** ** Depth-limited and iterative-deepening search *)

Definition dl_measure (app : App) : nat :=
  7 * unexplored R C (app.(explored)) + length (app.(frontier_dl)).

Definition dl_inv (algo : Algorithm) (app : App) : Prop :=
  base_inv algo app ∧ Forall (fun x => good s x.1) (app.(frontier_dl)).

Lemma expand_limited_progress algo limit c depth app :
  dl_inv algo app -> good s c ->
  ∃ app', expand_limited limit c depth app = Some app'
          ∧ dl_inv algo app'
          ∧ app'.(current_depth_limit) = app.(current_depth_limit)
          ∧ (dl_measure app' <= dl_measure app)%nat.
Proof.
  intros ((Hrows & Hcols & Hgrid & Hstart & Htarget & Halgo & Hrun & Hdims)
          & Hgood) Hc.
  unfold expand_limited, dl_measure.
  case_bool_decide as Hex.
  { eexists. split; [reflexivity|]. by split; [split|]. }
  pose proof (good_not_target _ Hc) as Hct.
  pose proof (unexplored_add R C (app.(explored)) c (proj1 Hc) Hex) as Hu.
  destruct (mark_total
              (bool_decide (c ≠ app.(start) ∧ c ≠ app.(target))) c EXPLORED
              (set_explored ({[c]} ∪ app.(explored)) app))
    as (cs1 & Hmark & Hcs1); [done|by destruct Hc|].
  simpl in Hmark. simpl. rewrite Hmark. simpl.
  rewrite Htarget, (bool_decide_eq_false_2 _ Hct).
  clear Hmark. case_bool_decide as Hdepth; simpl.
  - rewrite Hgrid, Hrows, Hcols.
    destruct (get_neighbors_total G R C c HG) as [ns Hns]. rewrite Hns. simpl.
    rewrite push_unexplored_loop. simpl.
    set (new := filter (fun n => n ∉ {[c]} ∪ app.(explored)) (reverse ns)).
    assert (∀ x, x ∈ new -> x ∈ ns) as Hnew.
    { intros x [_ Hx]%list_elem_of_filter. by rewrite elem_of_reverse in Hx. }
    assert (length new <= 6)%nat as Hlen.
    { unfold new. etrans; [apply length_filter|].
      rewrite length_reverse. by eapply neighbors_length. }
    match goal with
    | |- context [paint_list ?a ?b ?st] =>
        destruct (paint_list_total a R C b st) as (cs2 & Hp & Hcs2);
        [done| |]
    end.
    { apply Forall_forall. intros x [_ Hx]%list_elem_of_filter.
      apply Hnew in Hx. revert x Hx. apply Forall_forall.
      by apply (neighbors_in_bounds c). }
    rewrite Hp. simpl. eexists. split; [reflexivity|]. split; [split|].
    + by unfold base_inv.
    + simpl. apply Forall_app. split; [|done]. apply Forall_reverse.
      apply Forall_fmap. apply Forall_forall. intros x Hx. simpl.
      eapply good_neighbor; eauto.
    + simpl. rewrite length_app, length_reverse, length_fmap.
      split; [done|]. lia.
  - eexists. split; [reflexivity|]. split; [by split|].
    simpl. split; [done|]. lia.
Qed.

Lemma dls_progress app :
  dl_inv DLS app ->
  ∃ app', algorithm_step app = Some app'
          ∧ (failed DLS app'
             ∨ (dl_inv DLS app' ∧ (dl_measure app' < dl_measure app)%nat)).
Proof.
  intros Hinv. pose proof Hinv as [Hbase Hgood].
  pose proof Hbase as
    (Hrows & Hcols & Hgrid & Hstart & Htarget & Halgo & Hrun & Hdims).
  unfold algorithm_step. rewrite Halgo. unfold dls_step.
  destruct (app.(frontier_dl)) as [|[c depth] rest] eqn:Efr.
  - eexists. split; [reflexivity|]. left. apply finish_false_failed; [done|].
    unfold frontier_exhausted. by rewrite Halgo.
  - apply Forall_cons in Hgood as [Hc Hgood].
    destruct (expand_limited_progress DLS (app.(depth_limit)) c depth
                (set_frontier_dl rest app))
      as (app' & Hstep & Hinv' & _ & Hle); [by split| done |].
    exists app'. split; [done|]. right. split; [done|].
    revert Hle. unfold dl_measure. simpl. rewrite Efr. simpl. lia.
Qed.

Definition iddfs_measure (app : App) : nat :=
  Z.to_nat (51 - app.(current_depth_limit)) * (7 * size (cells R C) + 2)
  + dl_measure app.

Lemma iddfs_progress app :
  dl_inv IDDFS app ->
  ∃ app', algorithm_step app = Some app'
          ∧ (failed IDDFS app'
             ∨ (dl_inv IDDFS app'
                ∧ (iddfs_measure app' < iddfs_measure app)%nat)).
Proof.
  intros Hinv. pose proof Hinv as [Hbase Hgood].
  pose proof Hbase as
    (Hrows & Hcols & Hgrid & Hstart & Htarget & Halgo & Hrun & Hdims).
  unfold algorithm_step. rewrite Halgo. unfold iddfs_step.
  destruct (app.(frontier_dl)) as [|[c depth] rest] eqn:Efr.
  - simpl. case_bool_decide as Hlimit.
    + eexists. split; [reflexivity|]. left. apply finish_false_failed; [done|].
      unfold frontier_exhausted. simpl. by rewrite Halgo.
    + rewrite Hrows, Hcols, Hstart.
      pose proof (create_cell_states_dims _ _ _ Hdims) as Hfresh.
      match goal with
      | |- context [paint s FRONTIER ?a] =>
          destruct (mark_total true s FRONTIER a) as (cs & Hp & Hcs);
          [done|done|]
      end.
      simpl in Hp. rewrite Hp.
      eexists. split; [reflexivity|]. right. split.
      * split; [by unfold base_inv|]. simpl.
        apply Forall_singleton. simpl. apply good_start.
      * unfold iddfs_measure, dl_measure. simpl. rewrite Efr. simpl.
        pose proof (unexplored_le R C ∅) as Hu.
        pose proof (unexplored_le R C (app.(explored))) as Hu'.
        replace (Z.to_nat (51 - (app.(current_depth_limit) + 1)))
          with (Z.to_nat (51 - app.(current_depth_limit)) - 1)%nat by lia.
        assert (1 <= Z.to_nat (51 - app.(current_depth_limit)))%nat
          as Hpos by lia.
        nia.
  - apply Forall_cons in Hgood as [Hc Hgood].
    destruct (expand_limited_progress IDDFS (app.(current_depth_limit)) c
                depth (set_frontier_dl rest app))
      as (app' & Hstep & Hinv' & Hsame & Hle); [by split| done |].
    exists app'. split; [done|]. right. split; [done|].
    revert Hle. unfold iddfs_measure, dl_measure. rewrite Hsame.
    simpl. rewrite Efr. simpl. lia.
Qed.

(** ** Uniform-cost search *)

Definition ucs_inv (app : App) : Prop :=
  base_inv UCS app
  ∧ Forall (fun x => good s x.2 ∧ is_Some (app.(cost_so_far) !! x.2))
      (app.(frontier_pq)).

Definition ucs_measure (app : App) : nat :=
  7 * unexplored R C (app.(explored)) + length (app.(frontier_pq)).

Lemma ucs_relax_loop c l app :
  ucs_inv app -> is_Some (app.(cost_so_far) !! c) -> Forall (good s) l ->
  ∃ app', for_each (ucs_relax c) app l = Some app'
          ∧ ucs_inv app'
          ∧ app'.(explored) = app.(explored)
          ∧ (length (app'.(frontier_pq))
             <= length (app.(frontier_pq)) + length l)%nat.
Proof.
  intros Hinv Hcost Hl. revert app Hinv Hcost.
  induction Hl as [|x l Hx Hl IH]; intros app Hinv Hcost.
  { exists app. simpl. split_and!; try done. lia. }
  assert (∃ app1, ucs_relax c app x = Some app1
                  ∧ ucs_inv app1 ∧ is_Some (app1.(cost_so_far) !! c)
                  ∧ app1.(explored) = app.(explored)
                  ∧ (length (app1.(frontier_pq))
                     <= S (length (app.(frontier_pq))))%nat)
    as (app1 & H1 & Hinv1 & Hcost1 & Hex1 & Hlen1).
  { destruct Hinv as
      ((Hrows & Hcols & Hgrid & Hstart & Htarget & Halgo & Hrun & Hdims)
       & Hpq).
    unfold ucs_relax. case_bool_decide as Hxe.
    2:{ exists app. split_and!; try done. lia. }
    destruct Hcost as [base Hbase]. rewrite Hbase. simpl.
    set (new_cost := (base + get_move_cost c x)%float).
    set (improves := match app.(cost_so_far) !! x with
                     | Some old => PrimFloat.ltb new_cost old
                     | None => true
                     end).
    destruct improves.
    2:{ exists app. split_and!; first [done | lia | by exists base]. }
    match goal with
    | |- context [bool_decide ?P] =>
        match goal with
        | |- context [paint x FRONTIER ?a] =>
            destruct (mark_total (bool_decide P) x FRONTIER a)
              as (cs & Hp & Hcs); [done|by destruct Hx|]
        end
    end.
    simpl in Hp. rewrite Hp. eexists. split; [reflexivity|].
    split_and!; try done; simpl.
    - split; [by unfold base_inv|]. simpl. apply Forall_cons. split.
      + simpl. split; [done|]. rewrite lookup_insert_is_Some. by left.
      + eapply Forall_impl; [exact Hpq|]. intros y [Hy1 Hy2].
        split; [done|]. rewrite lookup_insert_is_Some'. by right.
    - rewrite lookup_insert_is_Some'. right. by exists base. }
  destruct (IH app1 Hinv1 Hcost1) as (app' & H' & Hinv' & Hex' & Hlen').
  exists app'. simpl. rewrite H1. simpl. split_and!; try done.
  - congruence.
  - lia.
Qed.

Lemma ucs_progress app :
  ucs_inv app ->
  ∃ app', algorithm_step app = Some app'
          ∧ (failed UCS app'
             ∨ (ucs_inv app' ∧ (ucs_measure app' < ucs_measure app)%nat)).
Proof.
  intros Hinv. pose proof Hinv as
    ((Hrows & Hcols & Hgrid & Hstart & Htarget & Halgo & Hrun & Hdims)
     & Hpq).
  unfold algorithm_step. rewrite Halgo. unfold ucs_step, ucs_measure.
  destruct (app.(frontier_pq)) as [|x l] eqn:Efr.
  - eexists. split; [reflexivity|]. left. apply finish_false_failed; [done|].
    unfold frontier_exhausted. by rewrite Halgo.
  - pose proof (pop_min_perm x l) as Hperm.
    destruct (pop_min x l) as [[cost c] rest]. simpl in Hperm.
    rewrite Hperm in Hpq. apply Forall_cons in Hpq as [[Hc Hcost] Hrest].
    apply Permutation_length in Hperm. simpl in Hperm, Hc, Hcost.
    simpl. case_bool_decide as Hex.
    { eexists. split; [reflexivity|]. right. split; [by split|].
      simpl. lia. }
    pose proof (good_not_target _ Hc) as Hct.
    pose proof (unexplored_add R C (app.(explored)) c (proj1 Hc) Hex) as Hu.
    destruct (mark_total
                (bool_decide (c ≠ app.(start) ∧ c ≠ app.(target))) c EXPLORED
                (set_explored ({[c]} ∪ app.(explored))
                   (set_frontier_pq rest app)))
      as (cs1 & Hmark & Hcs1); [done|by destruct Hc|].
    simpl in Hmark. rewrite Hmark. simpl.
    rewrite Htarget, (bool_decide_eq_false_2 _ Hct).
    rewrite Hgrid, Hrows, Hcols.
    destruct (get_neighbors_total G R C c HG) as [ns Hns]. rewrite Hns. simpl.
    match goal with
    | |- context [for_each (ucs_relax c) ?a ns] =>
        destruct (ucs_relax_loop c ns a)
          as (app1 & H1 & Hinv1 & Hex1 & Hlen1)
    end.
    { by split. }
    { done. }
    { apply Forall_forall. intros y Hy. by eapply good_neighbor. }
    rewrite H1. simpl. eexists. split; [reflexivity|]. right.
    destruct Hinv1 as [Hbase1 Hpq1]. split; [by split|].
    simpl. rewrite Hex1. simpl in *.
    pose proof (neighbors_length _ _ _ _ _ Hns). lia.
Qed.

(** ** Bidirectional search *)

(** One side of the bidirectional search: its queue, and the nodes it has
    expanded, are cells that can be reached from its end [a]. *)
Definition side_inv (a : node) (queue : list node) (visited : gset node)
  : Prop :=
  Forall (good a) queue ∧ NoDup queue
  ∧ (∀ x, x ∈ queue -> x ∉ visited)
  ∧ (∀ x, x ∈ visited -> good a x).

Definition bidi_inv (app : App) : Prop :=
  base_inv Bidirectional app
  ∧ side_inv s (app.(frontier_forward)) (app.(explored_forward))
  ∧ side_inv t (app.(frontier_backward)) (app.(explored_backward)).

Definition bidi_measure (app : App) : nat :=
  2 * (unexplored R C (app.(explored_forward))
       + unexplored R C (app.(explored_backward)))
  + Z.to_nat (app.(step_count) `mod` 2).

Lemma side_inv_expand a c rest visited ns :
  side_inv a (c :: rest) visited ->
  (∀ x, x ∈ ns -> good a x) -> NoDup ns ->
  good a c ∧ (c ∉ visited)
  ∧ side_inv a (rest ++ discovered ({[c]} ∪ visited) rest ns)
      ({[c]} ∪ visited).
Proof.
  intros (Hgood & Hnd & Hdisj & Hvis) Hns Hndns.
  apply Forall_cons in Hgood as [Hc Hgood].
  apply NoDup_cons in Hnd as [Hcrest Hnd].
  split; [done|]. split; [apply Hdisj; by left|]. split_and!.
  - apply Forall_app. split; [done|].
    apply Forall_forall. intros x [_ Hx]%list_elem_of_filter. by apply Hns.
  - apply NoDup_app. split; [done|]. split.
    + intros x Hx [[_ Hxr] _]%list_elem_of_filter. by apply Hxr.
    + by apply NoDup_filter.
  - intros x [Hx|Hx]%elem_of_app.
    + apply not_elem_of_union. split.
      * apply not_elem_of_singleton. intros ->. by apply Hcrest.
      * apply Hdisj. by right.
    + by apply list_elem_of_filter in Hx as [[Hx _] _].
  - intros x [Hx|Hx]%elem_of_union; [|by apply Hvis].
    apply elem_of_singleton in Hx as ->. done.
Qed.

Lemma parity_le z : (Z.to_nat (z `mod` 2) <= 1)%nat.
Proof. pose proof (Z.mod_pos_bound z 2 ltac:(lia)). lia. Qed.

Lemma parity_flip z :
  z `mod` 2 ≠ 0 ->
  (Z.to_nat ((z + 1) `mod` 2) < Z.to_nat (z `mod` 2))%nat.
Proof.
  intros Hz. pose proof (Z.mod_pos_bound z 2 ltac:(lia)).
  assert (z `mod` 2 = 1) as Hone by lia.
  rewrite <- Zplus_mod_idemp_l, Hone.
  replace ((1 + 1) `mod` 2) with 0 by reflexivity. lia.
Qed.

Lemma forward_side_progress c rest app :
  bidi_inv app -> app.(frontier_forward) = c :: rest ->
  ∃ app', forward_side c rest app = Some app'
          ∧ bidi_inv app' ∧ (bidi_measure app' < bidi_measure app)%nat.
Proof.
  intros ((Hrows & Hcols & Hgrid & Hstart & Htarget & Halgo & Hrun & Hdims)
          & Hf & Hb) Efr.
  rewrite Efr in Hf.
  destruct (get_neighbors_total G R C c HG) as [ns Hns].
  pose proof (neighbors_NoDup _ _ _ _ _ Hns) as Hndns.
  assert (good s c) as Hc0 by (by destruct Hf as [[? _]%Forall_cons _]).
  destruct (side_inv_expand s c rest _ ns Hf) as (Hc & Hex & Hf');
    [intros x Hx; by eapply (good_neighbor s c ns)|done|].
  unfold forward_side, bidi_measure.
  destruct (mark_total (bool_decide (c ≠ app.(start))) c EXPLORED
              (set_explored_forward ({[c]} ∪ app.(explored_forward))
                 (set_frontier_forward rest app)))
    as (cs1 & Hmark & Hcs1); [done|by destruct Hc|].
  simpl in Hmark. simpl. rewrite Hmark. simpl.
  rewrite bool_decide_eq_false_2.
  2:{ intros Hcb. destruct Hb as (_ & _ & _ & Hvis).
      by apply (no_meeting c Hc), Hvis. }
  rewrite Hgrid, Hrows, Hcols, Hns. simpl.
  rewrite (forward_visit_loop _ _ _ Hndns). simpl.
  match goal with
  | |- context [paint_list ?a ?b ?st] =>
      destruct (paint_list_total a R C b st) as (cs2 & Hp & Hcs2);
      [done| |]
  end.
  { apply Forall_forall. intros x [_ [_ Hx]%list_elem_of_filter]%list_elem_of_filter.
    revert x Hx. apply Forall_forall. by apply (neighbors_in_bounds c). }
  rewrite Hp. simpl. eexists. split; [reflexivity|]. split.
  - split; [by unfold base_inv|]. by simpl.
  - simpl.
    pose proof (unexplored_add R C (app.(explored_forward)) c (proj1 Hc) Hex).
    pose proof (parity_le (app.(step_count) + 1)). lia.
Qed.

Lemma backward_side_progress c rest app :
  bidi_inv app -> app.(frontier_backward) = c :: rest ->
  ∃ app', backward_side c rest app = Some app'
          ∧ bidi_inv app' ∧ (bidi_measure app' < bidi_measure app)%nat.
Proof.
  intros ((Hrows & Hcols & Hgrid & Hstart & Htarget & Halgo & Hrun & Hdims)
          & Hf & Hb) Efr.
  rewrite Efr in Hb.
  destruct (get_neighbors_total G R C c HG) as [ns Hns].
  pose proof (neighbors_NoDup _ _ _ _ _ Hns) as Hndns.
  assert (good t c) as Hc0 by (by destruct Hb as [[? _]%Forall_cons _]).
  destruct (side_inv_expand t c rest _ ns Hb) as (Hc & Hex & Hb');
    [intros x Hx; by eapply (good_neighbor t c ns)|done|].
  unfold backward_side, bidi_measure.
  destruct (mark_total (bool_decide (c ≠ app.(target))) c EXPLORED2
              (set_explored_backward ({[c]} ∪ app.(explored_backward))
                 (set_frontier_backward rest app)))
    as (cs1 & Hmark & Hcs1); [done|by destruct Hc|].
  simpl in Hmark. simpl. rewrite Hmark. simpl.
  rewrite bool_decide_eq_false_2.
  2:{ intros Hcf. destruct Hf as (_ & _ & _ & Hvis).
      apply (no_meeting c); [by apply Hvis|done]. }
  rewrite Hgrid, Hrows, Hcols, Hns. simpl.
  rewrite (backward_visit_loop _ _ _ Hndns). simpl.
  match goal with
  | |- context [paint_list ?a ?b ?st] =>
      destruct (paint_list_total a R C b st) as (cs2 & Hp & Hcs2);
      [done| |]
  end.
  { apply Forall_forall. intros x [_ [_ Hx]%list_elem_of_filter]%list_elem_of_filter.
    revert x Hx. apply Forall_forall. by apply (neighbors_in_bounds c). }
  rewrite Hp. simpl. eexists. split; [reflexivity|]. split.
  - split; [by unfold base_inv|]. by simpl.
  - simpl.
    pose proof (unexplored_add R C (app.(explored_backward)) c (proj1 Hc) Hex).
    pose proof (parity_le (app.(step_count) + 1)). lia.
Qed.

Lemma bidirectional_progress app :
  bidi_inv app ->
  ∃ app', algorithm_step app = Some app'
          ∧ (failed Bidirectional app'
             ∨ (bidi_inv app' ∧ (bidi_measure app' < bidi_measure app)%nat)).
Proof.
  intros Hinv. pose proof Hinv as
    ((Hrows & Hcols & Hgrid & Hstart & Htarget & Halgo & Hrun & Hdims)
     & Hf & Hb).
  unfold algorithm_step. rewrite Halgo. unfold bidirectional_step.
  destruct (app.(frontier_forward)) as [|cf restf] eqn:Ef;
    destruct (app.(frontier_backward)) as [|cb restb] eqn:Eb.
  - eexists. split; [reflexivity|]. left. apply finish_false_failed; [done|].
    unfold frontier_exhausted. by rewrite Halgo.
  - destruct (backward_side_progress cb restb app Hinv Eb)
      as (app' & H' & Hinv' & Hlt).
    exists app'. split; [by destruct (bool_decide _)|]. by right.
  - case_bool_decide as Hpar.
    + destruct (forward_side_progress cf restf app Hinv Ef)
        as (app' & H' & Hinv' & Hlt).
      exists app'. split; [done|]. by right.
    + eexists. split; [reflexivity|]. right. split.
      * split; [by unfold base_inv|]. simpl. by rewrite Ef, Eb.
      * unfold bidi_measure. simpl. pose proof (parity_flip _ Hpar). lia.
  - case_bool_decide as Hpar.
    + destruct (forward_side_progress cf restf app Hinv Ef)
        as (app' & H' & Hinv' & Hlt).
      exists app'. split; [done|]. by right.
    + destruct (backward_side_progress cb restb app Hinv Eb)
        as (app' & H' & Hinv' & Hlt).
      exists app'. split; [done|]. by right.
Qed.

(** The state [start_search] leaves satisfies the invariant of the selected
    algorithm, and every step keeps it or ends the search with failure. *)
Lemma unreachable_run algo depth_limit cs :
  matrix_dims cs R C ->
  ∃ n app', run n (initial R C G s t algo depth_limit cs) = Some app'
            ∧ app'.(searching) = false ∧ failed algo app'.
Proof.
  intros Hcs.
  assert (good t t) as Ht by (split; [by destruct Hopen|apply rtc_refl]).
  assert (∀ a : node, side_inv a [a] ∅ ↔ good a a) as Hside.
  { intros a. split; [by intros [[? _]%Forall_cons _]|]. intros Ha.
    split_and!; [by apply Forall_singleton|apply NoDup_singleton
                |set_solver|set_solver]. }
  destruct algo.
  - apply (run_until bfs_inv (fun a => unexplored R C (a.(explored)))).
    + by intros a ((_ & _ & _ & _ & _ & _ & ? & _) & _).
    + intros a Ha. destruct (bfs_progress a Ha) as (a' & H1 & [Hf|Hi]);
        exists a'; (split; [done|]); [left|by right].
      split; [by destruct Hf|done].
    + split; [by unfold base_inv|]. simpl.
      split_and!; [apply Forall_singleton, good_start|apply NoDup_singleton
                  |set_solver].
  - apply (run_until dfs_inv dfs_measure).
    + by intros a ((_ & _ & _ & _ & _ & _ & ? & _) & _).
    + intros a Ha. destruct (dfs_progress a Ha) as (a' & H1 & [Hf|Hi]);
        exists a'; (split; [done|]); [left|by right].
      split; [by destruct Hf|done].
    + split; [by unfold base_inv|]. simpl. apply Forall_singleton, good_start.
  - apply (run_until ucs_inv ucs_measure).
    + by intros a ((_ & _ & _ & _ & _ & _ & ? & _) & _).
    + intros a Ha. destruct (ucs_progress a Ha) as (a' & H1 & [Hf|Hi]);
        exists a'; (split; [done|]); [left|by right].
      split; [by destruct Hf|done].
    + split; [by unfold base_inv|]. simpl. apply Forall_singleton. simpl.
      split; [apply good_start|]. by rewrite lookup_singleton_is_Some.
  - apply (run_until (dl_inv DLS) dl_measure).
    + by intros a ((_ & _ & _ & _ & _ & _ & ? & _) & _).
    + intros a Ha. destruct (dls_progress a Ha) as (a' & H1 & [Hf|Hi]);
        exists a'; (split; [done|]); [left|by right].
      split; [by destruct Hf|done].
    + split; [by unfold base_inv|]. simpl. apply Forall_singleton, good_start.
  - apply (run_until (dl_inv IDDFS) iddfs_measure).
    + by intros a ((_ & _ & _ & _ & _ & _ & ? & _) & _).
    + intros a Ha. destruct (iddfs_progress a Ha) as (a' & H1 & [Hf|Hi]);
        exists a'; (split; [done|]); [left|by right].
      split; [by destruct Hf|done].
    + split; [by unfold base_inv|]. simpl. apply Forall_singleton, good_start.
  - apply (run_until bidi_inv bidi_measure).
    + by intros a ((_ & _ & _ & _ & _ & _ & ? & _) & _).
    + intros a Ha.
      destruct (bidirectional_progress a Ha) as (a' & H1 & [Hf|Hi]);
        exists a'; (split; [done|]); [left|by right].
      split; [by destruct Hf|done].
    + split; [by unfold base_inv|]. simpl.
      split; apply Hside; [apply good_start|done].
Qed.

End Unreachable.

(** Ticks after the end of a search change nothing. *)
Lemma run_finished n app :
  app.(searching) = false -> run n app = Some app.
Proof.
  intros H. induction n as [|n IH]; [done|].
  by rewrite run_S, (update_finished _ H).
Qed.

(** A run that reaches a finished state passes through no fault before it and
    stays in that state after it. *)
Lemma run_reaches n app app' :
  run n app = Some app' -> app'.(searching) = false ->
  ∀ m, is_Some (run m app) ∧ ((n <= m)%nat -> run m app = Some app').
Proof.
  revert app. induction n as [|n IH]; intros app Hn Hfin m.
  - simpl in Hn. injection Hn as ->. rewrite (run_finished _ _ Hfin).
    by split; [eexists|].
  - rewrite run_S in Hn. destruct (update app) as [app1|] eqn:Hup;
      [|discriminate]. simpl in Hn.
    destruct m as [|m]; [split; [by eexists|lia]|].
    rewrite run_S, Hup. simpl. destruct (IH _ Hn Hfin m) as [H1 H2].
    split; [done|]. intros ?. apply H2. lia.
Qed.

(** A region of the grid that no move leaves; a Target outside a closed
    region that holds the Start cannot be reached. *)
Definition closed_region (grid : list (list CellType)) (rows cols : Z)
    (region : list node) : Prop :=
  Forall (fun a =>
            Forall (fun d => open_cell grid rows cols (move_to a d) ->
                             move_to a d ∈ region) movements) region.

#[global] Instance closed_region_dec grid rows cols region :
  Decision (closed_region grid rows cols region).
Proof. unfold closed_region. apply _. Defined.

Lemma closed_region_unreachable grid rows cols region (s t : node) :
  closed_region grid rows cols region -> s ∈ region -> t ∉ region ->
  ¬ rtc (edge grid rows cols) s t.
Proof.
  intros Hclosed Hs Ht Hreach. apply Ht. clear Ht.
  induction Hreach as [|a b c [(d & Hd & ->) Hopen] _ IH]; [done|].
  apply IH. unfold closed_region in Hclosed.
  rewrite Forall_forall in Hclosed. specialize (Hclosed a Hs).
  rewrite Forall_forall in Hclosed. by apply Hclosed.
Qed.

(** On every well-formed grid in which no sequence of moves leads from the
    Start to the Target (whose cell is not a wall), each of the six
    algorithms, stepped from the state [start_search] builds, ends after
    finitely many ticks with failure: the frontier it works on is empty, the
    status line is the no-path message with the step count, no tick on the
    way raises an exception, and later ticks leave the state as it is. *)
Theorem unreachable_target_fails rows cols grid s t algo depth_limit :
  matrix_dims grid rows cols -> in_bounds rows cols s ->
  open_cell grid rows cols t -> ¬ rtc (edge grid rows cols) s t ->
  ∃ n app',
    failed algo app'
    ∧ (∀ m, is_Some (search m (new_app rows cols grid s t algo depth_limit)))
    ∧ ∀ m, (n <= m)%nat ->
        search m (new_app rows cols grid s t algo depth_limit) = Some app'.
Proof.
  intros Hg Hs Hopen Hun.
  destruct (start_search_new rows cols grid s t algo depth_limit Hs
              (proj1 Hopen)) as (cs & Hstart & Hcs).
  destruct (unreachable_run rows cols grid s t Hg Hs Hopen Hun algo
              depth_limit cs Hcs) as (n & app' & Hrun & Hfin & Hfailed).
  exists n, app'. split; [done|].
  split; intros m; rewrite (search_run _ _ _ Hstart);
    by apply (run_reaches n _ app').
Qed.

Lemma unreachable_target_fails_witness :
  ∃ n app',
    failed Bidirectional app'
    ∧ (∀ m, is_Some (search m (new_app 1 5 corridor5 (0, 0) (0, 4)
                                 Bidirectional 20)))
    ∧ ∀ m, (n <= m)%nat ->
        search m (new_app 1 5 corridor5 (0, 0) (0, 4) Bidirectional 20)
        = Some app'.
Proof.
  apply unreachable_target_fails.
  - split; [reflexivity|by repeat constructor].
  - by vm_compute.
  - split; [by vm_compute|by vm_compute].
  - apply (closed_region_unreachable _ _ _ [(0, 0); (0, 1); (0, 2)]).
    + apply (bool_decide_unpack _). by vm_compute.
    + apply (bool_decide_unpack _). by vm_compute.
    + apply (bool_decide_unpack _). by vm_compute.
Defined.

(** * Further properties of the neighbour model *)

(** On a grid of [rows] rows of [cols] cells, [get_neighbors] raises nothing,
    for any node (also one outside the grid), and returns, in the order of
    the six displacements, the displaced cells that are inside the grid and
    not walls: no cell twice, at most six. *)
Theorem get_neighbors_spec grid rows cols nd :
  matrix_dims grid rows cols ->
  ∃ ns, get_neighbors grid nd rows cols = Some ns
        ∧ ns = filter (open_cell grid rows cols) (move_to nd <$> movements)
        ∧ NoDup ns ∧ (length ns <= 6)%nat
        ∧ ∀ b, b ∈ ns ↔ edge grid rows cols nd b.
Proof.
  intros Hg. pose proof (get_neighbors_eq grid rows cols nd Hg) as Heq.
  eexists. split; [exact Heq|]. split; [reflexivity|].
  split; [by eapply neighbors_NoDup|].
  split; [by eapply neighbors_length|].
  intros b. by eapply elem_of_neighbors.
Qed.

Lemma get_neighbors_spec_witness :
  ∃ ns, get_neighbors block22 (0, 0) 2 2 = Some ns
        ∧ ns = filter (open_cell block22 2 2) (move_to (0, 0) <$> movements)
        ∧ NoDup ns ∧ (length ns <= 6)%nat
        ∧ ∀ b, b ∈ ns ↔ edge block22 2 2 (0, 0) b.
Proof.
  apply get_neighbors_spec. split; [reflexivity|by repeat constructor].
Defined.

(** The neighbour relation is symmetric between cells that are not walls:
    the six displacements come in opposite pairs, so when [b] is listed among
    the neighbours of a non-wall cell [a] inside the grid, [a] is listed among
    the neighbours of [b]. *)
Theorem neighbors_symmetric grid rows cols a b na nb :
  open_cell grid rows cols a ->
  get_neighbors grid a rows cols = Some na ->
  get_neighbors grid b rows cols = Some nb ->
  b ∈ na -> a ∈ nb.
Proof.
  intros Ha Hna Hnb Hb.
  apply (elem_of_neighbors _ _ _ _ _ _ Hnb).
  apply edge_sym; [done|]. by apply (elem_of_neighbors _ _ _ _ _ _ Hna).
Qed.

Lemma neighbors_symmetric_witness :
  (0, 0) ∈ [(0, 1); (1, 0); (0, 0)].
Proof.
  apply (neighbors_symmetric block22 2 2 (0, 0) (1, 1)
           [(0, 1); (1, 0); (1, 1)]).
  - apply (bool_decide_unpack _). by vm_compute.
  - by vm_compute.
  - by vm_compute.
  - apply (bool_decide_unpack _). by vm_compute.
Defined.

(** The cost of a move does not depend on its direction. *)
Theorem get_move_cost_symmetric a b : get_move_cost a b = get_move_cost b a.
Proof.
  destruct a as [r1 c1], b as [r2 c2]. unfold get_move_cost.
  replace (Z.abs (r2 - r1)) with (Z.abs (r1 - r2)) by lia.
  replace (Z.abs (c2 - c1)) with (Z.abs (c1 - c2)) by lia.
  reflexivity.
Qed.

(** * The life cycle of a run *)

(** Two application states with the same fields are the same state. *)
Lemma App_ext (a b : App) :
  a.(rows) = b.(rows) -> a.(cols) = b.(cols) -> a.(grid) = b.(grid) ->
  a.(cell_states) = b.(cell_states) -> a.(start) = b.(start) ->
  a.(target) = b.(target) ->
  a.(selected_algorithm) = b.(selected_algorithm) ->
  a.(frontier) = b.(frontier) -> a.(frontier_pq) = b.(frontier_pq) ->
  a.(frontier_dl) = b.(frontier_dl) -> a.(explored) = b.(explored) ->
  a.(came_from) = b.(came_from) -> a.(final_path) = b.(final_path) ->
  a.(search_complete) = b.(search_complete) ->
  a.(searching) = b.(searching) -> a.(step_count) = b.(step_count) ->
  a.(depth_limit) = b.(depth_limit) ->
  a.(current_depth_limit) = b.(current_depth_limit) ->
  a.(cost_so_far) = b.(cost_so_far) ->
  a.(frontier_forward) = b.(frontier_forward) ->
  a.(frontier_backward) = b.(frontier_backward) ->
  a.(explored_forward) = b.(explored_forward) ->
  a.(explored_backward) = b.(explored_backward) ->
  a.(came_from_forward) = b.(came_from_forward) ->
  a.(came_from_backward) = b.(came_from_backward) ->
  a.(meeting_point) = b.(meeting_point) ->
  a.(status_message) = b.(status_message) -> a = b.
Proof.
  intros.
  change a with (mkApp (rows a) (cols a) (grid a) (cell_states a) (start a)
    (target a) (selected_algorithm a) (frontier a) (frontier_pq a)
    (frontier_dl a) (explored a) (came_from a) (final_path a)
    (search_complete a) (searching a) (step_count a) (depth_limit a)
    (current_depth_limit a) (cost_so_far a) (frontier_forward a)
    (frontier_backward a) (explored_forward a) (explored_backward a)
    (came_from_forward a) (came_from_backward a) (meeting_point a)
    (status_message a)).
  change b with (mkApp (rows b) (cols b) (grid b) (cell_states b) (start b)
    (target b) (selected_algorithm b) (frontier b) (frontier_pq b)
    (frontier_dl b) (explored b) (came_from b) (final_path b)
    (search_complete b) (searching b) (step_count b) (depth_limit b)
    (current_depth_limit b) (cost_so_far b) (frontier_forward b)
    (frontier_backward b) (explored_forward b) (explored_backward b)
    (came_from_forward b) (came_from_backward b) (meeting_point b)
    (status_message b)).
  f_equal; assumption.
Qed.


(** [start_search] on an application that is not searching builds its state
    from the grid size, the grid, Start, Target, the selected algorithm and
    the depth limit alone: whatever an earlier run left in the frontiers, the
    visited sets, the predecessor and cost maps, the path, the counters, the
    overlay and the status line is discarded, so a run started after another
    one goes, tick for tick, as the run of a newly created application. *)
Theorem rerun_is_fresh_run app n :
  app.(searching) = false ->
  search n app
  = search n (new_app (app.(rows)) (app.(cols)) (app.(grid)) (app.(start))
                (app.(target)) (app.(selected_algorithm))
                (app.(depth_limit))).
Proof.
  intros Hs. unfold search. f_equal.
  unfold start_search. rewrite Hs. simpl.
  destruct (app.(selected_algorithm)) eqn:Ealgo; unfold paint; simpl;
    repeat (destruct (set2 _ _ _ _); simpl; try reflexivity);
    f_equal; apply App_ext; simpl; rewrite ?Ealgo; reflexivity.
Qed.

(** A finished breadth-first run on [corridor2], to be run again. *)
Definition bfs_corridor2_done : App :=
  default (new_app 1 2 corridor2 (0, 0) (0, 1) BFS 20)
    (search 2 (new_app 1 2 corridor2 (0, 0) (0, 1) BFS 20)).

Lemma rerun_is_fresh_run_witness :
  bfs_corridor2_done.(search_complete) = true
  ∧ search 2 bfs_corridor2_done
    = search 2 (new_app 1 2 corridor2 (0, 0) (0, 1) BFS 20).
Proof.
  split; [by vm_compute|].
  apply (rerun_is_fresh_run bfs_corridor2_done 2). by vm_compute.
Defined.

(** * app.py and ui.py: from the mouse to the grid *)

(** [self.ui_height], set once in [__init__]. *)
Definition ui_height : Z := 220.

(** Python's [//] on integers: the floor of the quotient, and
    [ZeroDivisionError] for a zero divisor. *)
Definition py_floordiv (a b : Z) : option Z :=
  if decide (b = 0) then None else Some (a / b).

(** [PathfinderApp._get_grid_pos]: the outer [option] is an exception, the
    inner one the [None] the method returns for a position off the grid.
    [self.grid_height] is [rows * cell_size], as [__init__] sets it. *)
Definition get_grid_pos (rows cols cell_size : Z) (mouse_pos : Z * Z)
  : option (option node) :=
  let '(x, y) := mouse_pos in
  let y := y - ui_height in
  let grid_height := rows * cell_size in
  if bool_decide (y < 0 ∨ y >= grid_height) then Some None
  else
    col ← py_floordiv x cell_size;
    row ← py_floordiv y cell_size;
    if bool_decide (0 <= row < rows ∧ 0 <= col < cols)
    then Some (Some (row, col)) else Some None.

(** The rectangle [draw_grid] paints for a cell: left, top, width, height. *)
Definition cell_rect (cell_size : Z) (nd : node) : Z * Z * Z * Z :=
  let x := nd.2 * cell_size in
  let y := nd.1 * cell_size + ui_height in
  (x, y, cell_size, cell_size).

(** The points of a rectangle: its left and top edges are inside, its right
    and bottom edges are not. *)
Definition collidepoint (rect : Z * Z * Z * Z) (p : Z * Z) : Prop :=
  let '(x, y, w, h) := rect in
  (x <= p.1 < x + w) ∧ (y <= p.2 < y + h).

(** [_get_grid_pos] raises nothing, whatever the position and the sizes (the
    test against the grid height returns before a division by a zero cell
    size), and it returns a cell exactly for the positions inside the
    rectangle that [draw_grid] paints for that cell of the grid. *)
Theorem get_grid_pos_spec rows cols cell_size p :
  is_Some (get_grid_pos rows cols cell_size p)
  ∧ ∀ nd, get_grid_pos rows cols cell_size p = Some (Some nd)
          ↔ in_bounds rows cols nd ∧ collidepoint (cell_rect cell_size nd) p.
Proof.
  destruct p as [x y]. unfold get_grid_pos, py_floordiv, collidepoint,
    cell_rect, in_bounds, ui_height. simpl.
  case_bool_decide as Hy.
  { split; [by eexists|]. intros [r c]. simpl.
    split; [discriminate|]. intros [[? ?] [? ?]]. exfalso.
    assert (0 < cell_size) by lia.
    assert ((r + 1) * cell_size <= rows * cell_size) by nia.
    assert (0 <= r * cell_size) by nia. lia. }
  assert (0 <= y - 220 < rows * cell_size) as Hy' by lia.
  destruct (decide (cell_size = 0)) as [->|Hcs]; [exfalso; lia|]. simpl.
  assert (∀ r c, (0 <= r < rows ∧ 0 <= c < cols)
                 ∧ (c * cell_size <= x < c * cell_size + cell_size)
                 ∧ (r * cell_size + 220 <= y < r * cell_size + 220 + cell_size)
                 -> (y - 220) / cell_size = r ∧ x / cell_size = c) as Hkey.
  { intros r c [_ [? ?]]. split; symmetry.
    - apply (Z.div_unique_pos _ _ r (y - 220 - r * cell_size)); lia.
    - apply (Z.div_unique_pos _ _ c (x - c * cell_size)); lia. }
  case_bool_decide as Hin.
  - split; [by eexists|]. intros [r c]. simpl. split.
    + intros [= <- <-]. split; [done|].
      assert (0 < cell_size) as Hpos by nia.
      pose proof (Z.mul_div_le x cell_size Hpos).
      pose proof (Z.mul_succ_div_gt x cell_size Hpos).
      pose proof (Z.mul_div_le (y - 220) cell_size Hpos).
      pose proof (Z.mul_succ_div_gt (y - 220) cell_size Hpos).
      lia.
    + intros Hrc. destruct (Hkey r c Hrc) as [-> ->]. reflexivity.
  - split; [by eexists|]. intros [r c]. simpl. split; [discriminate|].
    intros Hrc. exfalso. apply Hin.
    destruct (Hkey r c Hrc) as [-> ->]. by destruct Hrc.
Qed.

(** * app.py: the speed and depth buttons *)

Definition increase_speed (animation_delay : Z) : Z :=
  Z.max 1 (animation_delay - 10).

Definition decrease_speed (animation_delay : Z) : Z :=
  Z.min 200 (animation_delay + 10).

Definition increase_depth (depth_limit : Z) : Z :=
  Z.min 100 (depth_limit + 5).

Definition decrease_depth (depth_limit : Z) : Z :=
  Z.max 5 (depth_limit - 5).

(** The four buttons of [misc_buttons]. *)
Inductive MiscButton : Type :=
  | SpeedMinus | SpeedPlus | DepthMinus | DepthPlus.

(** The pair (animation delay, depth limit) after a press: the callbacks as
    [setup_buttons] binds them. *)
Definition press (settings : Z * Z) (b : MiscButton) : Z * Z :=
  let '(animation_delay, depth_limit) := settings in
  match b with
  | SpeedMinus => (decrease_speed animation_delay, depth_limit)
  | SpeedPlus => (increase_speed animation_delay, depth_limit)
  | DepthMinus => (animation_delay, decrease_depth depth_limit)
  | DepthPlus => (animation_delay, increase_depth depth_limit)
  end.

(** The values [__init__] gives to the delay and to the depth limit. *)
Definition initial_settings : Z * Z := (20, 20).

(** Whatever buttons are pressed, in whatever order, after [__init__]: the
    animation delay stays between 1 and 200 milliseconds and is a multiple
    of ten or one more than a multiple of ten (the clamp at 1 shifts it), and
    the depth limit stays a multiple of five between 5 and 100. *)
Theorem settings_in_range (presses : list MiscButton) :
  let '(animation_delay, depth_limit) :=
    foldl press initial_settings presses in
  1 <= animation_delay <= 200
  ∧ (animation_delay `mod` 10 = 0 ∨ animation_delay `mod` 10 = 1)
  ∧ 5 <= depth_limit <= 100 ∧ depth_limit `mod` 5 = 0.
Proof.
  assert (∀ st : Z * Z,
            (1 <= st.1 <= 200 ∧ (st.1 `mod` 10 = 0 ∨ st.1 `mod` 10 = 1)
             ∧ 5 <= st.2 <= 100 ∧ st.2 `mod` 5 = 0) ->
            let '(a, d) := foldl press st presses in
            1 <= a <= 200 ∧ (a `mod` 10 = 0 ∨ a `mod` 10 = 1)
            ∧ 5 <= d <= 100 ∧ d `mod` 5 = 0) as Hgen.
  { induction presses as [|b l IH]; intros [a d] Hst; simpl in *; [done|].
    apply IH. clear IH. destruct Hst as (Ha & Hm & Hd & Hdm).
    unfold increase_speed, decrease_speed, increase_depth, decrease_depth.
    destruct b; simpl; (split; [lia|]); (split; [|split; [lia|]]);
      try assumption.
    - destruct (Z.min_spec 200 (a + 10)) as [[_ ->]|[_ ->]]; [by left|].
      destruct Hm as [Hm|Hm]; [left|right];
        rewrite <- Zplus_mod_idemp_l, Hm; reflexivity.
    - destruct (Z.max_spec 1 (a - 10)) as [[_ ->]|[_ ->]]; [|by right].
      destruct Hm as [Hm|Hm]; [left|right];
        rewrite <- Zminus_mod_idemp_l, Hm; reflexivity.
    - destruct (Z.max_spec 5 (d - 5)) as [[_ ->]|[_ ->]]; [|reflexivity].
      rewrite <- Zminus_mod_idemp_l, Hdm. reflexivity.
    - destruct (Z.min_spec 100 (d + 5)) as [[_ ->]|[_ ->]]; [reflexivity|].
      rewrite <- Zplus_mod_idemp_l, Hdm. reflexivity. }
  apply (Hgen initial_settings). simpl.
  split; [lia|]. split; [by left|]. split; [lia|reflexivity].
Qed.
